(** * Investment projection: the calculation module, embedded and verified

    This development embeds [src/utils/calculations.ts] (the projection
    engine), the helpers and the row computations of
    [src/components/ComparisonTable.tsx], the URL state of
    [src/hooks/useAppState.ts] and the change handler of
    [src/components/InputForm.tsx].

    Numbers.  A JavaScript [number] is modelled by [num]: a real number, or
    one of the three special values [+Infinity], [-Infinity] and [NaN], with
    the arithmetic of IEEE-754 on the special values.  Finite arithmetic is
    exact: rounding, overflow and the sign of zero are outside the model.

    Whole years.  [termYears], [yearsPaid] and the loop counters [year] and
    [month] only ever hold whole numbers at the call sites (the literal
    [30], the loop counter, [projection.year - 1]); they are embedded as
    [nat].

    Platform.  [URLSearchParams] is the ordered list of its name-value
    pairs; [parseFloat], [Number] and [Number.prototype.toString] are
    parameters of the definitions that call them. *)

From Stdlib Require Import String.
From Stdlib Require Import Reals Lra Lia List ZArith Bool Arith.
Import ListNotations.

Open Scope R_scope.

(** ** Decidable comparisons on the reals, as booleans *)

Definition Rltb (x y : R) : bool := if Rlt_dec x y then true else false.
Definition Rleb (x y : R) : bool := if Rle_dec x y then true else false.
Definition Reqb (x y : R) : bool := if Req_dec_T x y then true else false.

(** The least integer not below [x]. *)
Definition ceilZ (x : R) : Z := (1 - up (- x))%Z.

(** The greatest integer not above [x]. *)
Definition floorZ (x : R) : Z := (up x - 1)%Z.

(** ** JavaScript numbers *)

Inductive num : Type :=
| Fin (x : R)
| PInf
| NInf
| NaN.

Declare Scope num_scope.
Delimit Scope num_scope with num.
Bind Scope num_scope with num.

Coercion Fin : R >-> num.

Definition of_nat (n : nat) : num := Fin (INR n).

Definition is_finite (a : num) : Prop :=
  match a with Fin _ => True | _ => False end.

(** [-a] *)
Definition nneg (a : num) : num :=
  match a with
  | Fin x => Fin (- x)
  | PInf => NInf
  | NInf => PInf
  | NaN => NaN
  end.

(** [a + b] *)
Definition nadd (a b : num) : num :=
  match a, b with
  | NaN, _ | _, NaN => NaN
  | Fin x, Fin y => Fin (x + y)
  | PInf, NInf | NInf, PInf => NaN
  | PInf, _ | _, PInf => PInf
  | NInf, _ | _, NInf => NInf
  end.

(** [a - b] *)
Definition nsub (a b : num) : num := nadd a (nneg b).

(** The infinity with the sign of [x], [NaN] for zero. *)
Definition inf_signed (x : R) : num :=
  if Rltb 0 x then PInf else if Rltb x 0 then NInf else NaN.

(** [a * b] *)
Definition nmul (a b : num) : num :=
  match a, b with
  | NaN, _ | _, NaN => NaN
  | Fin x, Fin y => Fin (x * y)
  | Fin x, PInf | PInf, Fin x => inf_signed x
  | Fin x, NInf | NInf, Fin x => inf_signed (- x)
  | PInf, PInf | NInf, NInf => PInf
  | PInf, NInf | NInf, PInf => NInf
  end.

(** [a / b]; a zero divisor counts as [+0]. *)
Definition ndiv (a b : num) : num :=
  match a, b with
  | NaN, _ | _, NaN => NaN
  | Fin x, Fin y => if Reqb y 0 then inf_signed x else Fin (x / y)
  | Fin _, PInf | Fin _, NInf => Fin 0
  | PInf, Fin y => if Rltb y 0 then NInf else PInf
  | NInf, Fin y => if Rltb y 0 then PInf else NInf
  | _, _ => NaN
  end.

(** [a < b]; every comparison with [NaN] is false. *)
Definition nlt (a b : num) : bool :=
  match a, b with
  | NaN, _ | _, NaN => false
  | Fin x, Fin y => Rltb x y
  | _, NInf => false
  | PInf, _ => false
  | NInf, _ => true
  | Fin _, PInf => true
  end.

(** [a <= b] *)
Definition nle (a b : num) : bool :=
  match a, b with
  | NaN, _ | _, NaN => false
  | Fin x, Fin y => Rleb x y
  | NInf, _ => true
  | _, PInf => true
  | _, NInf => false
  | PInf, _ => false
  end.

(** [a > b] and [a >= b] *)
Definition ngt (a b : num) : bool := nlt b a.
Definition nge (a b : num) : bool := nle b a.

(** [a === b] *)
Definition neq (a b : num) : bool :=
  match a, b with
  | Fin x, Fin y => Reqb x y
  | PInf, PInf | NInf, NInf => true
  | _, _ => false
  end.

(** [Math.max(a, b)] *)
Definition nmax (a b : num) : num :=
  match a, b with
  | NaN, _ | _, NaN => NaN
  | _, _ => if nle a b then b else a
  end.

(** [Math.min(a, b)] *)
Definition nmin (a b : num) : num :=
  match a, b with
  | NaN, _ | _, NaN => NaN
  | _, _ => if nle a b then a else b
  end.

(** [Math.ceil(a)] *)
Definition nceil (a : num) : num :=
  match a with
  | Fin x => Fin (IZR (ceilZ x))
  | _ => a
  end.

(** [Math.log(a)] *)
Definition nlog (a : num) : num :=
  match a with
  | Fin x => if Rltb x 0 then NaN else if Reqb x 0 then NInf else Fin (ln x)
  | PInf => PInf
  | NInf | NaN => NaN
  end.

(** [Math.pow(a, n)] for a whole exponent [n]. *)
Definition npow (a : num) (n : nat) : num :=
  match n with
  | O => Fin 1
  | S _ =>
      match a with
      | Fin x => Fin (x ^ n)
      | PInf => PInf
      | NInf => if Nat.odd n then NInf else PInf
      | NaN => NaN
      end
  end.

Infix "+" := nadd : num_scope.
Infix "-" := nsub : num_scope.
Infix "*" := nmul : num_scope.
Infix "/" := ndiv : num_scope.
Notation "- a" := (nneg a) : num_scope.
Infix "<?" := nlt : num_scope.
Infix "<=?" := nle : num_scope.
Infix ">?" := ngt (at level 70) : num_scope.
Infix ">=?" := nge (at level 70) : num_scope.
Infix "===" := neq (at level 70) : num_scope.

(** ** The data model of [calculations.ts] *)

(** [InvestmentInputs] (declared in [InputForm.tsx]). *)
Record InvestmentInputs : Type := mkInputs {
  initialNetWorth : num;
  yearlyInvestment : num;
  weeklyRent : num;
  stockAnnualReturn : num;
  houseCost : num;
  mortgageRate : num;
  houseGrowthRate : num;
  ownersCorp : num
}.

Record YearlyProjection : Type := mkProjection {
  year : nat;
  stockValue : num;
  stockCumulativeInvestment : num;
  rentPaid : num;
  stockNetWorth : num;
  propertyValue : num;
  mortgageBalance : num;
  propertyNetWorth : num;
  propertyEquity : num;
  totalInterestPaid : num;
  ownersCostsPaid : num;
  stockTotalCost : num;
  propertyTotalCost : num
}.

(** ** The amortization helpers *)

Definition calculateMortgagePayment (principal annualRate : num) (termYears : nat) : num :=
  let monthlyRate := (annualRate / 100 / 12)%num in
  let numPayments := (termYears * 12)%nat in
  if (monthlyRate === 0)%num then (principal / of_nat numPayments)%num
  else
    (principal * (monthlyRate * npow (1 + monthlyRate) numPayments)
     / (npow (1 + monthlyRate) numPayments - 1))%num.

Definition calculatePayoffTime (principal annualRate monthlyPayment extraAnnualPayment : num) : num :=
  if (extraAnnualPayment <=? 0)%num then Fin 30
  else
    let monthlyRate := (annualRate / 100 / 12)%num in
    let totalMonthlyPayment := (monthlyPayment + extraAnnualPayment / 12)%num in
    if (monthlyRate === 0)%num then (principal / (totalMonthlyPayment * 12))%num
    else
      let months :=
        (- nlog (1 - principal * monthlyRate / totalMonthlyPayment)
         / nlog (1 + monthlyRate))%num in
      nmax (Fin (1 / 10)) (months / 12)%num.

Definition calculateMortgageBalance
  (principal annualRate monthlyPayment extraAnnualPayment : num) (yearsPaid : nat) : num :=
  let monthlyRate := (annualRate / 100 / 12)%num in
  let totalMonthlyPayment := (monthlyPayment + extraAnnualPayment / 12)%num in
  let monthsPaid := (yearsPaid * 12)%nat in
  if (monthlyRate === 0)%num then
    nmax 0 (principal - totalMonthlyPayment * of_nat monthsPaid)%num
  else
    let remainingBalance :=
      (principal * npow (1 + monthlyRate) monthsPaid
       - totalMonthlyPayment * ((npow (1 + monthlyRate) monthsPaid - 1) / monthlyRate))%num in
    nmax 0 remainingBalance.

(** The loop of [calculateInterestPaid]:
    [for (month = 0; month < monthsPaid && balance > 0; month++)].
    [remaining] is [monthsPaid - month], the iterations still allowed by
    the first conjunct of the guard. *)
Fixpoint interestLoop (remaining : nat)
  (monthlyRate totalMonthlyPayment balance totalInterest : num) : num :=
  match remaining with
  | O => totalInterest
  | S remaining' =>
      if (balance >? 0)%num then
        let interestPayment := (balance * monthlyRate)%num in
        let principalPayment := nmin balance (totalMonthlyPayment - interestPayment)%num in
        interestLoop remaining' monthlyRate totalMonthlyPayment
          (balance - principalPayment)%num (totalInterest + interestPayment)%num
      else totalInterest
  end.

Definition calculateInterestPaid
  (principal annualRate monthlyPayment extraAnnualPayment : num) (yearsPaid : nat) : num :=
  let monthlyRate := (annualRate / 100 / 12)%num in
  let totalMonthlyPayment := (monthlyPayment + extraAnnualPayment / 12)%num in
  let monthsPaid := (yearsPaid * 12)%nat in
  interestLoop monthsPaid monthlyRate totalMonthlyPayment principal 0.

(** ** [calculateProjections] *)

(** The values computed once, before the loop. *)
Definition loanAmount (inputs : InvestmentInputs) : num :=
  (houseCost inputs - initialNetWorth inputs)%num.

Definition monthlyMortgage (inputs : InvestmentInputs) : num :=
  if (loanAmount inputs >? 0)%num
  then calculateMortgagePayment (loanAmount inputs) (mortgageRate inputs) 30
  else 0.

Definition annualMortgageCosts (inputs : InvestmentInputs) : num :=
  (monthlyMortgage inputs * 12 + ownersCorp inputs)%num.

Definition extraAnnualPayment (inputs : InvestmentInputs) : num :=
  nmax 0 (yearlyInvestment inputs - annualMortgageCosts inputs)%num.

Definition payoffTime (inputs : InvestmentInputs) : num :=
  if (loanAmount inputs >? 0)%num
  then calculatePayoffTime (loanAmount inputs) (mortgageRate inputs)
         (monthlyMortgage inputs) (extraAnnualPayment inputs)
  else 0.

Definition maxYears (inputs : InvestmentInputs) : num :=
  nmax 5 (nceil (payoffTime inputs) + 2)%num.

Definition annualRent (inputs : InvestmentInputs) : num :=
  (weeklyRent inputs * 52)%num.

(** The snapshot pushed in iteration [year]; [stockValue], [cumulativeRent]
    and [cumulativeOwnersCosts] are the running totals after this
    iteration's updates. *)
Definition snapshot (inputs : InvestmentInputs) (year : nat)
  (stockValue cumulativeRent cumulativeOwnersCosts : num) : YearlyProjection :=
  let netStockInvestment := (yearlyInvestment inputs - annualRent inputs)%num in
  let mortgageBalance :=
    calculateMortgageBalance (loanAmount inputs) (mortgageRate inputs)
      (monthlyMortgage inputs) (extraAnnualPayment inputs) year in
  let interestPaid :=
    calculateInterestPaid (loanAmount inputs) (mortgageRate inputs)
      (monthlyMortgage inputs) (extraAnnualPayment inputs) year in
  let propertyValue :=
    (houseCost inputs * npow (1 + houseGrowthRate inputs / 100) year)%num in
  {| year := year;
     stockValue := stockValue;
     stockCumulativeInvestment :=
       (initialNetWorth inputs + netStockInvestment * of_nat year)%num;
     rentPaid := cumulativeRent;
     stockNetWorth := stockValue;
     propertyValue := propertyValue;
     mortgageBalance := mortgageBalance;
     propertyNetWorth := (propertyValue - mortgageBalance)%num;
     propertyEquity := (propertyValue - mortgageBalance)%num;
     totalInterestPaid := interestPaid;
     ownersCostsPaid := cumulativeOwnersCosts;
     stockTotalCost :=
       (cumulativeRent
        + initialNetWorth inputs * stockAnnualReturn inputs / 100 * of_nat year)%num;
     propertyTotalCost := (interestPaid + cumulativeOwnersCosts)%num |}.

(** The loop [for (let year = 1; year <= maxYears; year++)], entered at
    [year] with the running totals of the previous iterations.  [fuel]
    bounds the number of iterations. *)
Fixpoint projectionLoop (inputs : InvestmentInputs) (fuel year : nat)
  (stockValue cumulativeRent cumulativeOwnersCosts : num) : list YearlyProjection :=
  match fuel with
  | O => []
  | S fuel' =>
      if (of_nat year <=? maxYears inputs)%num then
        let rentThisYear := annualRent inputs in
        let cumulativeRent := (cumulativeRent + rentThisYear)%num in
        let netStockInvestment := (yearlyInvestment inputs - rentThisYear)%num in
        let stockValue :=
          (stockValue * (1 + stockAnnualReturn inputs / 100) + netStockInvestment)%num in
        let cumulativeOwnersCosts := (cumulativeOwnersCosts + ownersCorp inputs)%num in
        let p := snapshot inputs year stockValue cumulativeRent cumulativeOwnersCosts in
        if ((mortgageBalance p <=? 0)%num && (of_nat year >? payoffTime inputs)%num)%bool
        then [p]
        else p :: projectionLoop inputs fuel' (S year)
                    stockValue cumulativeRent cumulativeOwnersCosts
      else []
  end.

(** The number of iterations after which the guard [year <= maxYears] has
    failed.  With [maxYears = +Infinity] the guard never fails, and the
    [break] never fires either ([payoffTime] is [+Infinity] then): the loop
    does not end, and there is no bound. *)
Definition loopBound (m : num) : option nat :=
  match m with
  | Fin x => Some (Z.to_nat (floorZ x))
  | PInf => None
  | NInf | NaN => Some O
  end.

(** [calculateProjections]: [None] when the loop does not end. *)
Definition calculateProjections (inputs : InvestmentInputs) : option (list YearlyProjection) :=
  match loopBound (maxYears inputs) with
  | Some fuel => Some (projectionLoop inputs fuel 1 (initialNetWorth inputs) 0 0)
  | None => None
  end.

(** The helper of the same name in [ComparisonTable.tsx]. *)
Module ComparisonTable.

Definition calculateMortgageBalance
  (principal annualRate monthlyPayment extraAnnualPayment : num) (yearsPaid : nat) : num :=
  if (of_nat yearsPaid >=? 30)%num then 0
  else
    let monthlyRate := (annualRate / 100 / 12)%num in
    let totalMonthlyPayment := (monthlyPayment + extraAnnualPayment / 12)%num in
    let monthsPaid := (yearsPaid * 12)%nat in
    if (monthlyRate === 0)%num then
      nmax 0 (principal - totalMonthlyPayment * of_nat monthsPaid)%num
    else
      let remainingBalance :=
        (principal * npow (1 + monthlyRate) monthsPaid
         - totalMonthlyPayment * ((npow (1 + monthlyRate) monthsPaid - 1) / monthlyRate))%num in
      nmax 0 remainingBalance.

End ComparisonTable.

(** ** The closed forms over the reals

    What the helpers compute on finite arguments with a positive monthly
    rate [r]. *)

(** The balance after [m] months, before flooring at zero. *)
Definition balanceFormula (P r T : R) (m : nat) : R :=
  P * (1 + r) ^ m - T * (((1 + r) ^ m - 1) / r).

(** The fixed payment that retires [P] in [n] months. *)
Definition annuity (P r : R) (n : nat) : R :=
  P * (r * (1 + r) ^ n) / ((1 + r) ^ n - 1).

(** The months to pay off [P] with the monthly payment [T]. *)
Definition payoffMonths (P r T : R) : R :=
  - ln (1 - P * r / T) / ln (1 + r).

(** ** Parameter sets *)

Definition nonneg (a : num) : Prop :=
  match a with Fin x => 0 <= x | _ => False end.

(** A valid [ScenarioParameters]: every field finite and non-negative. *)
Definition valid (inputs : InvestmentInputs) : Prop :=
  nonneg (initialNetWorth inputs) /\ nonneg (yearlyInvestment inputs) /\
  nonneg (weeklyRent inputs) /\ nonneg (stockAnnualReturn inputs) /\
  nonneg (houseCost inputs) /\ nonneg (mortgageRate inputs) /\
  nonneg (houseGrowthRate inputs) /\ nonneg (ownersCorp inputs).

(** The fields that decide the loan and the horizon are finite and the
    mortgage rate is not negative; the other fields are arbitrary. *)
Definition loan_fields_ok (inputs : InvestmentInputs) : Prop :=
  is_finite (initialNetWorth inputs) /\ is_finite (yearlyInvestment inputs) /\
  is_finite (houseCost inputs) /\ nonneg (mortgageRate inputs) /\
  is_finite (ownersCorp inputs).

(** The [break] test of the loop in iteration [year]. *)
Definition stops (inputs : InvestmentInputs) (year : nat) : bool :=
  ((calculateMortgageBalance (loanAmount inputs) (mortgageRate inputs)
      (monthlyMortgage inputs) (extraAnnualPayment inputs) year <=? 0)%num
   && (of_nat year >? payoffTime inputs)%num)%bool.

(** The stock path's yearly update. *)
Definition stockStep (inputs : InvestmentInputs) (stockValue : num) : num :=
  (stockValue * (1 + stockAnnualReturn inputs / 100)
   + (yearlyInvestment inputs - weeklyRent inputs * 52))%num.

(** The snapshots of [n] consecutive iterations of the loop from [year] on,
    without the guard and the [break] test. *)
Fixpoint snapshots (inputs : InvestmentInputs) (n year : nat)
  (stockValue cumulativeRent cumulativeOwnersCosts : num) : list YearlyProjection :=
  match n with
  | O => []
  | S n' =>
      let cumulativeRent := (cumulativeRent + annualRent inputs)%num in
      let stockValue := stockStep inputs stockValue in
      let cumulativeOwnersCosts := (cumulativeOwnersCosts + ownersCorp inputs)%num in
      snapshot inputs year stockValue cumulativeRent cumulativeOwnersCosts
      :: snapshots inputs n' (S year) stockValue cumulativeRent cumulativeOwnersCosts
  end.

(** A payoff time [p] and yearly balances [B] that the engine computes for
    [inputs], with the facts the loop analysis needs. *)
Record Schedule (inputs : InvestmentInputs) (p : R) (B : nat -> R) : Prop := {
  sched_payoff : payoffTime inputs = Fin p;
  sched_balance : forall y,
    calculateMortgageBalance (loanAmount inputs) (mortgageRate inputs)
      (monthlyMortgage inputs) (extraAnnualPayment inputs) y = Fin (B y);
  sched_range : 0 <= p <= 30;
  sched_nonneg : forall y, 0 <= B y;
  sched_antitone : forall y y', (y <= y')%nat -> B y' <= B y;
  sched_paid : forall y, (1 <= y)%nat -> p <= INR y -> B y = 0;
  sched_finite :
    is_finite (loanAmount inputs) /\ is_finite (monthlyMortgage inputs) /\
    is_finite (extraAnnualPayment inputs)
}.

(** The facts of a [Schedule] about the helpers alone. *)
Definition LoanSchedule (L a M e p : R) (B : nat -> R) : Prop :=
  calculatePayoffTime (Fin L) (Fin a) (Fin M) (Fin e) = Fin p /\
  (forall y, calculateMortgageBalance (Fin L) (Fin a) (Fin M) (Fin e) y = Fin (B y)) /\
  0 < p <= 30 /\
  (forall y, 0 <= B y) /\
  (forall y y', (y <= y')%nat -> B y' <= B y) /\
  (forall y, p <= INR y -> B y = 0).


(** Scenario A of the specification. *)
Definition scenarioA : InvestmentInputs :=
  {| initialNetWorth := 100000; yearlyInvestment := 35000;
     weeklyRent := 500; stockAnnualReturn := Fin (98 / 10);
     houseCost := 500000; mortgageRate := Fin (55 / 10);
     houseGrowthRate := Fin (35 / 10); ownersCorp := 5000 |}.

(** Scenario B: as A, with a yearly investment below the housing cost. *)
Definition scenarioB : InvestmentInputs :=
  {| initialNetWorth := 100000; yearlyInvestment := 20000;
     weeklyRent := 500; stockAnnualReturn := Fin (98 / 10);
     houseCost := 500000; mortgageRate := Fin (55 / 10);
     houseGrowthRate := Fin (35 / 10); ownersCorp := 5000 |}.

(** Scenario C: as A, with the house paid from the initial net worth. *)
Definition scenarioC : InvestmentInputs :=
  {| initialNetWorth := 600000; yearlyInvestment := 35000;
     weeklyRent := 500; stockAnnualReturn := Fin (98 / 10);
     houseCost := 500000; mortgageRate := Fin (55 / 10);
     houseGrowthRate := Fin (35 / 10); ownersCorp := 5000 |}.




(** ** Month-by-month amortization *)

(** The balance [n] months after a balance [b], when each month adds the
    interest [b * r] and takes off the payment [T]. *)
Fixpoint amortize (r T b : R) (n : nat) : R :=
  match n with
  | O => b
  | S n' => amortize r T (b * (1 + r) - T) n'
  end.

(** ** The rows of [ComparisonTable.tsx] *)

(** [Array.prototype.findIndex]: the index of the first element that
    satisfies [f], [-1] when there is none. *)
Fixpoint findIndex {A : Type} (f : A -> bool) (l : list A) : Z :=
  match l with
  | [] => (-1)%Z
  | x :: l' =>
      if f x then 0%Z
      else let i := findIndex f l' in if (i <? 0)%Z then (-1)%Z else (i + 1)%Z
  end.

Module ComparisonTableRow.

(** The copy of [calculateMortgagePayment] in [ComparisonTable.tsx]. *)
Definition calculateMortgagePayment (principal annualRate : num) (termYears : nat) : num :=
  let monthlyRate := (annualRate / 100 / 12)%num in
  let numPayments := (termYears * 12)%nat in
  if (monthlyRate === 0)%num then (principal / of_nat numPayments)%num
  else
    (principal * (monthlyRate * npow (1 + monthlyRate) numPayments)
     / (npow (1 + monthlyRate) numPayments - 1))%num.

(** What the callback of [displayYears.map] computes for one row. *)
Record Row : Type := mkRow {
  prevStockValue : num;
  annualRent : num;
  stockGrowth : num;
  extraPayment : num;
  beginningHouseValue : num;
  houseGrowth : num;
  beginningMortgageBalance : num;
  annualInterestPayment : num;
  difference : num;
  leaderIsStocks : bool
}.

(** The callback; [projection.year - 1] is a whole number of years, at
    least 0 for the years >= 1 of the engine's snapshots. *)
Definition row (projections : list YearlyProjection) (inputs : InvestmentInputs)
  (projection : YearlyProjection) : Row :=
  let yearIndex := findIndex (fun p => Nat.eqb (year p) (year projection)) projections in
  let prevProjection :=
    if (yearIndex >? 0)%Z then nth_error projections (Z.to_nat (yearIndex - 1)) else None in
  let prevStockValue :=
    match prevProjection with
    | Some p => stockValue p
    | None => initialNetWorth inputs
    end in
  let annualRent := (weeklyRent inputs * 52)%num in
  let stockGrowth := (prevStockValue * (stockAnnualReturn inputs / 100))%num in
  let loanAmount := (houseCost inputs - initialNetWorth inputs)%num in
  let monthlyMortgage :=
    if (loanAmount >? 0)%num
    then calculateMortgagePayment loanAmount (mortgageRate inputs) 30
    else Fin 0 in
  let annualMortgage := (monthlyMortgage * 12)%num in
  let extraPayment :=
    nmax 0 (yearlyInvestment inputs - annualMortgage - ownersCorp inputs)%num in
  let beginningHouseValue :=
    if (yearIndex >? 0)%Z
    then (houseCost inputs
          * npow (1 + houseGrowthRate inputs / 100) (year projection - 1))%num
    else houseCost inputs in
  let houseGrowth := (beginningHouseValue * (houseGrowthRate inputs / 100))%num in
  let beginningMortgageBalance :=
    if (yearIndex >? 0)%Z
    then ComparisonTable.calculateMortgageBalance loanAmount (mortgageRate inputs)
           monthlyMortgage extraPayment (year projection - 1)
    else loanAmount in
  let annualInterestPayment :=
    (beginningMortgageBalance * (mortgageRate inputs / 100))%num in
  let difference := (stockNetWorth projection - propertyNetWorth projection)%num in
  {| prevStockValue := prevStockValue;
     annualRent := annualRent;
     stockGrowth := stockGrowth;
     extraPayment := extraPayment;
     beginningHouseValue := beginningHouseValue;
     houseGrowth := houseGrowth;
     beginningMortgageBalance := beginningMortgageBalance;
     annualInterestPayment := annualInterestPayment;
     difference := difference;
     leaderIsStocks := (difference >=? 0)%num |}.

End ComparisonTableRow.

(** ** The URL state of [useAppState.ts] *)

(** [keyof InvestmentInputs]. *)
Inductive InputKey : Type :=
| KInitialNetWorth | KYearlyInvestment | KWeeklyRent | KStockAnnualReturn
| KHouseCost | KMortgageRate | KHouseGrowthRate | KOwnersCorp.

Definition InputKey_eqb (a b : InputKey) : bool :=
  match a, b with
  | KInitialNetWorth, KInitialNetWorth | KYearlyInvestment, KYearlyInvestment
  | KWeeklyRent, KWeeklyRent | KStockAnnualReturn, KStockAnnualReturn
  | KHouseCost, KHouseCost | KMortgageRate, KMortgageRate
  | KHouseGrowthRate, KHouseGrowthRate | KOwnersCorp, KOwnersCorp => true
  | _, _ => false
  end.

(** [inputs[key]] *)
Definition getField (key : InputKey) (inputs : InvestmentInputs) : num :=
  match key with
  | KInitialNetWorth => initialNetWorth inputs
  | KYearlyInvestment => yearlyInvestment inputs
  | KWeeklyRent => weeklyRent inputs
  | KStockAnnualReturn => stockAnnualReturn inputs
  | KHouseCost => houseCost inputs
  | KMortgageRate => mortgageRate inputs
  | KHouseGrowthRate => houseGrowthRate inputs
  | KOwnersCorp => ownersCorp inputs
  end.

(** [{ ...inputs, [key]: value }] *)
Definition setField (key : InputKey) (value : num) (inputs : InvestmentInputs)
  : InvestmentInputs :=
  match key with
  | KInitialNetWorth =>
      mkInputs value (yearlyInvestment inputs) (weeklyRent inputs)
        (stockAnnualReturn inputs) (houseCost inputs) (mortgageRate inputs)
        (houseGrowthRate inputs) (ownersCorp inputs)
  | KYearlyInvestment =>
      mkInputs (initialNetWorth inputs) value (weeklyRent inputs)
        (stockAnnualReturn inputs) (houseCost inputs) (mortgageRate inputs)
        (houseGrowthRate inputs) (ownersCorp inputs)
  | KWeeklyRent =>
      mkInputs (initialNetWorth inputs) (yearlyInvestment inputs) value
        (stockAnnualReturn inputs) (houseCost inputs) (mortgageRate inputs)
        (houseGrowthRate inputs) (ownersCorp inputs)
  | KStockAnnualReturn =>
      mkInputs (initialNetWorth inputs) (yearlyInvestment inputs) (weeklyRent inputs)
        value (houseCost inputs) (mortgageRate inputs)
        (houseGrowthRate inputs) (ownersCorp inputs)
  | KHouseCost =>
      mkInputs (initialNetWorth inputs) (yearlyInvestment inputs) (weeklyRent inputs)
        (stockAnnualReturn inputs) value (mortgageRate inputs)
        (houseGrowthRate inputs) (ownersCorp inputs)
  | KMortgageRate =>
      mkInputs (initialNetWorth inputs) (yearlyInvestment inputs) (weeklyRent inputs)
        (stockAnnualReturn inputs) (houseCost inputs) value
        (houseGrowthRate inputs) (ownersCorp inputs)
  | KHouseGrowthRate =>
      mkInputs (initialNetWorth inputs) (yearlyInvestment inputs) (weeklyRent inputs)
        (stockAnnualReturn inputs) (houseCost inputs) (mortgageRate inputs)
        value (ownersCorp inputs)
  | KOwnersCorp =>
      mkInputs (initialNetWorth inputs) (yearlyInvestment inputs) (weeklyRent inputs)
        (stockAnnualReturn inputs) (houseCost inputs) (mortgageRate inputs)
        (houseGrowthRate inputs) value
  end.

Definition defaultInputs : InvestmentInputs :=
  {| initialNetWorth := 100000; yearlyInvestment := 35000;
     weeklyRent := 500; stockAnnualReturn := Fin (98 / 10);
     houseCost := 500000; mortgageRate := Fin (55 / 10);
     houseGrowthRate := Fin (35 / 10); ownersCorp := 5000 |}.

Definition urlParamMap (key : InputKey) : string :=
  match key with
  | KInitialNetWorth => "deposit"
  | KYearlyInvestment => "yearly"
  | KWeeklyRent => "rent"
  | KStockAnnualReturn => "stockReturn"
  | KHouseCost => "housePrice"
  | KMortgageRate => "mortgageRate"
  | KHouseGrowthRate => "houseGrowth"
  | KOwnersCorp => "fees"
  end%string.

(** The keys of [urlParamMap], in the order of [Object.entries]. *)
Definition inputKeys : list InputKey :=
  [KInitialNetWorth; KYearlyInvestment; KWeeklyRent; KStockAnnualReturn;
   KHouseCost; KMortgageRate; KHouseGrowthRate; KOwnersCorp].

(** [inputKeyMap[param]]: the object built by [Object.fromEntries] from the
    swapped entries of [urlParamMap], where a later entry replaces an earlier
    one of the same name.  A name that the object only inherits from
    [Object.prototype] yields a key that is none of the eight fields; it
    counts as absent here. *)
Definition inputKeyMap (param : string) : option InputKey :=
  fold_left
    (fun found key => if String.eqb (urlParamMap key) param then Some key else found)
    inputKeys None.

(** [URLSearchParams]: the list of name-value pairs, in order. *)
Definition SearchParams : Type := list (string * string).

(** [searchParams.delete(name)]: removes every pair of that name. *)
Definition sp_delete (name : string) (sp : SearchParams) : SearchParams :=
  filter (fun entry => negb (String.eqb (fst entry) name)) sp.

(** [searchParams.set(name, value)]: sets the first pair of that name and
    removes the others, or appends the pair. *)
Fixpoint sp_set (name value : string) (sp : SearchParams) : SearchParams :=
  match sp with
  | [] => [(name, value)]
  | entry :: sp' =>
      if String.eqb (fst entry) name
      then (name, value) :: sp_delete name sp'
      else entry :: sp_set name value sp'
  end.

(** [isNaN(a)] *)
Definition isNaN (a : num) : bool :=
  match a with NaN => true | _ => false end.

Section UrlState.

(** [parseFloat] and [Number.prototype.toString] of the platform. *)
Variable parseFloat : string -> num.
Variable toString : num -> string.

(** The body of the loop over [searchParams.entries()]. *)
Definition readEntry (inputs : InvestmentInputs) (entry : string * string)
  : InvestmentInputs :=
  let (param, value) := entry in
  match inputKeyMap param with
  | Some inputKey =>
      if negb (String.eqb value "") then
        let numValue := parseFloat value in
        if negb (isNaN numValue) then setField inputKey numValue inputs else inputs
      else inputs
  | None => inputs
  end.

(** [getInitialInputsFromURL]; [window] is [None] where [window] is
    undefined, and else holds the pairs of [window.location.search]. *)
Definition getInitialInputsFromURL (window : option SearchParams) : InvestmentInputs :=
  match window with
  | None => defaultInputs
  | Some search => fold_left readEntry search defaultInputs
  end.

(** [updateURL]: the pairs of the URL it installs with [replaceState]. *)
Definition updateURL (key : InputKey) (value : num) (window : option SearchParams)
  : option SearchParams :=
  match window with
  | None => None
  | Some search =>
      let urlParam := urlParamMap key in
      if negb (value === getField key defaultInputs)%num
      then Some (sp_set urlParam (toString value) search)
      else Some (sp_delete urlParam search)
  end.

End UrlState.

(** The value of field [key] after reading the pairs [sp], from the value
    [acc]: the parsed value of the last pair of the field's name whose value
    is not empty and does not parse to [NaN]. *)
Definition fieldAfter (parseFloat : string -> num) (key : InputKey) (acc : num)
  (sp : SearchParams) : num :=
  fold_left
    (fun a entry =>
       if (String.eqb (fst entry) (urlParamMap key)
           && negb (String.eqb (snd entry) "")
           && negb (isNaN (parseFloat (snd entry))))%bool
       then parseFloat (snd entry) else a)
    sp acc.

(** ** The hook [useAppState] *)

(** The state of the hook: the [inputs] state, the object of
    [pendingChangesRef] as the list of its entries in insertion order, and
    the pairs of the URL. *)
Record AppState : Type := mkAppState {
  st_inputs : InvestmentInputs;
  st_pending : list (InputKey * num);
  st_window : option SearchParams
}.

(** [pending[key] = value]: replaces the entry of [key] in place, or adds
    one at the end. *)
Fixpoint pending_set (key : InputKey) (value : num) (pending : list (InputKey * num))
  : list (InputKey * num) :=
  match pending with
  | [] => [(key, value)]
  | entry :: pending' =>
      if InputKey_eqb (fst entry) key then (key, value) :: pending'
      else entry :: pending_set key value pending'
  end.

Section Hook.

Variable parseFloat : string -> num.
Variable toString : num -> string.

(** The initial state, [useState(() => getInitialInputsFromURL())]. *)
Definition initialState (window : option SearchParams) : AppState :=
  {| st_inputs := getInitialInputsFromURL parseFloat window;
     st_pending := [];
     st_window := window |}.

Definition handleInputChange (key : InputKey) (value : num) (st : AppState) : AppState :=
  {| st_inputs := setField key value (st_inputs st);
     st_pending := pending_set key value (st_pending st);
     st_window := st_window st |}.

Definition handleInputBlur (st : AppState) : AppState :=
  {| st_inputs := st_inputs st;
     st_pending := [];
     st_window :=
       fold_left (fun window entry => updateURL toString (fst entry) (snd entry) window)
         (st_pending st) (st_window st) |}.

Definition handlePopState (st : AppState) : AppState :=
  {| st_inputs := getInitialInputsFromURL parseFloat (st_window st);
     st_pending := [];
     st_window := st_window st |}.

(** A sequence of edits, each a call of [handleInputChange]. *)
Definition applyEdits (edits : list (InputKey * num)) (st : AppState) : AppState :=
  fold_left (fun s edit => handleInputChange (fst edit) (snd edit) s) edits st.

End Hook.

(** The platform prints [value] to a string that it parses back to [value],
    and [value] is not [NaN]. *)
Definition reproduced (parseFloat : string -> num) (toString : num -> string)
  (value : num) : Prop :=
  isNaN value = false /\ toString value <> ""%string /\
  parseFloat (toString value) = value.

(** The value that the pending entries give field [key], from [acc]. *)
Definition pendingAfter (key : InputKey) (acc : num) (pending : list (InputKey * num))
  : num :=
  fold_left (fun a entry => if InputKey_eqb (fst entry) key then snd entry else a)
    pending acc.

(** ** The form ([InputForm.tsx]) wired to the hook ([App.tsx]) *)

Section Form.

(** [Number], [parseFloat] and [Number.prototype.toString] of the platform. *)
Variable Number : string -> num.
Variable parseFloat : string -> num.
Variable toString : num -> string.

(** [handleInputChange] of the form: the number it passes to
    [onInputChange] for the typed text [value], [None] when it does not call
    it. *)
Definition formInputChange (value : string) : option num :=
  let numValue := if String.eqb value "" then Fin 0 else Number value in
  if (String.eqb value "" || negb (isNaN numValue))%bool then Some numValue else None.

(** Typing [value] into the field [key]: [App.tsx] passes the hook's
    [handleInputChange] as [onInputChange]. *)
Definition typeInto (key : InputKey) (value : string) (st : AppState) : AppState :=
  match formInputChange value with
  | Some numValue => handleInputChange key numValue st
  | None => st
  end.

(** Typing a sequence of texts into fields. *)
Definition typeAll (typed : list (InputKey * string)) (st : AppState) : AppState :=
  fold_left (fun s entry => typeInto (fst entry) (snd entry) s) typed st.

End Form.

(** The state while edits are pending: the window is unchanged, and the
    inputs are the inputs of the URL with the pending entries written over
    them. *)
Definition Pending (parseFloat : string -> num) (toString : num -> string)
  (sp : SearchParams) (st : AppState) : Prop :=
  st_window st = Some sp /\
  NoDup (map fst (st_pending st)) /\
  Forall (fun entry => reproduced parseFloat toString (snd entry)) (st_pending st) /\
  st_inputs st
  = fold_left (fun i entry => setField (fst entry) (snd entry) i) (st_pending st)
      (getInitialInputsFromURL parseFloat (Some sp)).

(** ** The row filter of the earlier comparison table *)

(** [Array.prototype.filter] with a callback that looks at the index;
    [index] is the index of the head of [l]. *)
Fixpoint filterIndexed {A : Type} (f : A -> nat -> bool) (l : list A) (index : nat)
  : list A :=
  match l with
  | [] => []
  | x :: l' =>
      if f x index then x :: filterIndexed f l' (S index)
      else filterIndexed f l' (S index)
  end.

(** [displayYears]: every year for the first 10 years, then every 5 years. *)
Definition displayYears (projections : list YearlyProjection) : list YearlyProjection :=
  filterIndexed
    (fun _ index =>
       let year := (index + 1)%nat in
       ((year <=? 10)%nat || (year mod 5 =? 0)%nat)%bool)
    projections 0.

(** * Properties *)

(** ** The boolean comparisons *)

Lemma Rltb_true (x y : R) : x < y -> Rltb x y = true.
Proof. intros H; unfold Rltb; destruct (Rlt_dec x y); [reflexivity | contradiction]. Qed.

Lemma Rltb_false (x y : R) : y <= x -> Rltb x y = false.
Proof. intros H; unfold Rltb; destruct (Rlt_dec x y); [lra | reflexivity]. Qed.

Lemma Rleb_true (x y : R) : x <= y -> Rleb x y = true.
Proof. intros H; unfold Rleb; destruct (Rle_dec x y); [reflexivity | contradiction]. Qed.

Lemma Rleb_false (x y : R) : y < x -> Rleb x y = false.
Proof. intros H; unfold Rleb; destruct (Rle_dec x y); [lra | reflexivity]. Qed.

Lemma Reqb_true (x y : R) : x = y -> Reqb x y = true.
Proof. intros H; unfold Reqb; destruct (Req_dec_T x y); [reflexivity | contradiction]. Qed.

Lemma Reqb_false (x y : R) : x <> y -> Reqb x y = false.
Proof. intros H; unfold Reqb; destruct (Req_dec_T x y); [contradiction | reflexivity]. Qed.

Lemma Rltb_iff (x y : R) : Rltb x y = true <-> x < y.
Proof. unfold Rltb; destruct (Rlt_dec x y); split; intros; auto; discriminate. Qed.

Lemma Rleb_iff (x y : R) : Rleb x y = true <-> x <= y.
Proof. unfold Rleb; destruct (Rle_dec x y); split; intros; auto; discriminate. Qed.

Lemma Reqb_iff (x y : R) : Reqb x y = true <-> x = y.
Proof. unfold Reqb; destruct (Req_dec_T x y); split; intros; auto; discriminate. Qed.

(** ** Rounding to integers *)

Lemma ceilZ_ge (x : R) : x <= IZR (ceilZ x).
Proof.
  unfold ceilZ. destruct (archimed (- x)) as [H1 H2].
  rewrite minus_IZR. lra.
Qed.

Lemma ceilZ_lt (x : R) : IZR (ceilZ x) < x + 1.
Proof.
  unfold ceilZ. destruct (archimed (- x)) as [H1 H2].
  rewrite minus_IZR. lra.
Qed.

Lemma ceilZ_least (x : R) (z : Z) : x <= IZR z -> (ceilZ x <= z)%Z.
Proof.
  intros H. pose proof (ceilZ_lt x) as Hlt.
  assert (IZR (ceilZ x) < IZR z + 1) as H1 by lra.
  rewrite <- plus_IZR in H1. apply lt_IZR in H1. lia.
Qed.

Lemma ceilZ_IZR (z : Z) : ceilZ (IZR z) = z.
Proof.
  apply Z.le_antisymm.
  - apply ceilZ_least. lra.
  - apply le_IZR. apply ceilZ_ge.
Qed.

Lemma floorZ_le (x : R) : IZR (floorZ x) <= x.
Proof.
  unfold floorZ. destruct (archimed x) as [H1 H2].
  rewrite minus_IZR. lra.
Qed.

Lemma floorZ_gt (x : R) : x < IZR (floorZ x) + 1.
Proof.
  unfold floorZ. destruct (archimed x) as [H1 H2].
  rewrite minus_IZR. lra.
Qed.

Lemma floorZ_IZR (z : Z) : floorZ (IZR z) = z.
Proof.
  pose proof (floorZ_le (IZR z)) as H1. pose proof (floorZ_gt (IZR z)) as H2.
  apply le_IZR in H1. rewrite <- plus_IZR in H2. apply lt_IZR in H2. lia.
Qed.

(** ** Arithmetic of finite numbers *)

Lemma ndiv_fin (x y : R) : y <> 0 -> (Fin x / Fin y)%num = Fin (x / y).
Proof. intros H; simpl; rewrite Reqb_false by assumption; reflexivity. Qed.

Lemma neq_fin_true (x y : R) : x = y -> (Fin x === Fin y)%num = true.
Proof. intros H; simpl; apply Reqb_true; assumption. Qed.

Lemma neq_fin_false (x y : R) : x <> y -> (Fin x === Fin y)%num = false.
Proof. intros H; simpl; apply Reqb_false; assumption. Qed.

Lemma nmax_fin (x y : R) : nmax (Fin x) (Fin y) = Fin (Rmax x y).
Proof.
  unfold nmax, nle, Rleb, Rmax. destruct (Rle_dec x y); reflexivity.
Qed.

Lemma nmin_fin (x y : R) : nmin (Fin x) (Fin y) = Fin (Rmin x y).
Proof.
  unfold nmin, nle, Rleb, Rmin. destruct (Rle_dec x y); reflexivity.
Qed.

Lemma npow_fin (x : R) (n : nat) : npow (Fin x) n = Fin (x ^ n).
Proof. destruct n; reflexivity. Qed.

Lemma monthlyRate_fin (a : R) : (Fin a / 100 / 12)%num = Fin (a / 100 / 12).
Proof. rewrite !ndiv_fin by lra. reflexivity. Qed.

(** ** The closed forms: amortization over the reals *)

Section Amortization.

Variables (P r : R).
Hypothesis r_pos : 0 < r.

Lemma growth_ge_1 (m : nat) : 1 <= (1 + r) ^ m.
Proof. apply pow_R1_Rle. lra. Qed.

Lemma growth_gt_1 (m : nat) : (0 < m)%nat -> 1 < (1 + r) ^ m.
Proof. intros H. apply Rlt_pow_R1; [lra | assumption]. Qed.

Lemma growth_mono (m n : nat) : (m <= n)%nat -> (1 + r) ^ m <= (1 + r) ^ n.
Proof. intros H. apply Rle_pow; [lra | assumption]. Qed.

Lemma balanceFormula_alt (T : R) (m : nat) :
  balanceFormula P r T m = (P - T / r) * (1 + r) ^ m + T / r.
Proof. unfold balanceFormula. field. lra. Qed.

Lemma balanceFormula_antitone (T : R) (m n : nat) :
  P * r <= T -> (m <= n)%nat -> balanceFormula P r T n <= balanceFormula P r T m.
Proof.
  intros HT Hmn. rewrite !balanceFormula_alt.
  pose proof (growth_mono m n Hmn) as Hq.
  assert (P - T / r <= 0) as Hc.
  { apply Rle_minus. apply Rmult_le_reg_r with r; [assumption|].
    unfold Rdiv. rewrite Rmult_assoc, Rinv_l by lra. lra. }
  nra.
Qed.

Lemma balanceFormula_payment_antitone (T1 T2 : R) (m : nat) :
  T1 <= T2 -> balanceFormula P r T2 m <= balanceFormula P r T1 m.
Proof.
  intros HT. unfold balanceFormula.
  assert (0 <= ((1 + r) ^ m - 1) / r) as Hc.
  { apply Rmult_le_pos; [pose proof (growth_ge_1 m); lra|].
    left. apply Rinv_0_lt_compat. assumption. }
  nra.
Qed.

Lemma balanceFormula_annuity (n : nat) :
  (0 < n)%nat -> balanceFormula P r (annuity P r n) n = 0.
Proof.
  intros Hn. pose proof (growth_gt_1 n Hn) as Hq.
  unfold balanceFormula, annuity. field. lra.
Qed.

Lemma annuity_gt_interest (n : nat) :
  0 < P -> (0 < n)%nat -> P * r < annuity P r n.
Proof.
  intros HP Hn. pose proof (growth_gt_1 n Hn) as Hq.
  unfold annuity.
  replace (P * (r * (1 + r) ^ n) / ((1 + r) ^ n - 1))
    with (P * r + P * r / ((1 + r) ^ n - 1)) by (field; lra).
  assert (0 < P * r / ((1 + r) ^ n - 1)) as H.
  { apply Rdiv_lt_0_compat; nra. }
  lra.
Qed.

Lemma ln_growth_pos : 0 < ln (1 + r).
Proof. rewrite <- ln_1. apply ln_increasing; lra. Qed.

(** The balance formula is non-positive exactly from [payoffMonths] on. *)
Lemma balanceFormula_nonpos_iff (T : R) (m : nat) :
  0 < P -> P * r < T ->
  (balanceFormula P r T m <= 0 <-> payoffMonths P r T <= INR m).
Proof.
  intros HP HT.
  assert (0 < T) as HT0 by nra.
  set (a := 1 - P * r / T).
  assert (0 < a) as Ha.
  { unfold a. apply Rlt_0_minus. apply Rmult_lt_reg_r with T; [assumption|].
    unfold Rdiv. rewrite Rmult_assoc, Rinv_l by lra. lra. }
  assert (a * T = T - P * r) as HaT by (unfold a; field; lra).
  pose proof ln_growth_pos as Hl.
  pose proof (pow_lt (1 + r) m ltac:(lra)) as Hq.
  assert (balanceFormula P r T m <= 0 <-> 1 <= a * (1 + r) ^ m) as H1.
  { rewrite balanceFormula_alt.
    replace ((P - T / r) * (1 + r) ^ m + T / r)
      with (T / r * (1 - a * (1 + r) ^ m)).
    2:{ replace (a * (1 + r) ^ m) with (a * T * (1 + r) ^ m / T) by (field; lra).
        rewrite HaT. field. lra. }
    assert (0 < T / r) as Hc by (apply Rdiv_lt_0_compat; lra).
    split; intros H; nra. }
  assert (payoffMonths P r T <= INR m <-> 0 <= ln a + INR m * ln (1 + r)) as H2.
  { unfold payoffMonths. fold a. split; intros H.
    - apply Rmult_le_compat_r with (r := ln (1 + r)) in H; [|lra].
      unfold Rdiv in H. rewrite Rmult_assoc, Rinv_l in H by lra. lra.
    - apply Rmult_le_reg_r with (ln (1 + r)); [assumption|].
      unfold Rdiv. rewrite Rmult_assoc, Rinv_l by lra. lra. }
  rewrite H1, H2.
  rewrite <- ln_pow by lra. rewrite <- ln_mult by assumption.
  pose proof ln_1 as Hln1.
  split; intros H.
  - destruct H as [H | H].
    + left. rewrite <- Hln1. apply ln_increasing; lra.
    + rewrite <- H. lra.
  - destruct H as [H | H].
    + left. apply ln_lt_inv; [lra | nra | lra].
    + right. apply ln_inv; [lra | nra | lra].
Qed.

Lemma payoffMonths_pos (T : R) : 0 < P -> P * r < T -> 0 < payoffMonths P r T.
Proof.
  intros HP HT. assert (0 < T) as HT0 by nra.
  unfold payoffMonths.
  assert (0 < P * r / T < 1) as [Hlo Hhi].
  { split.
    - apply Rdiv_lt_0_compat; nra.
    - apply Rmult_lt_reg_r with T; [assumption|].
      unfold Rdiv. rewrite Rmult_assoc, Rinv_l by lra. lra. }
  assert (ln (1 - P * r / T) < 0) as Hln.
  { rewrite <- ln_1. apply ln_increasing; lra. }
  apply Rdiv_lt_0_compat; [lra | apply ln_growth_pos].
Qed.

End Amortization.
(** ** The helpers on finite arguments *)

Ltac num_cbn := cbn [nadd nsub nneg nmul nle nlt ngt nge neq of_nat].

Lemma calculateMortgagePayment_zero_rate (principal : num) (termYears : nat) :
  calculateMortgagePayment principal (Fin 0) termYears
  = (principal / of_nat (termYears * 12))%num.
Proof.
  unfold calculateMortgagePayment. rewrite monthlyRate_fin.
  rewrite neq_fin_true by lra. reflexivity.
Qed.

Lemma INR_months_pos (n : nat) : (0 < n)%nat -> 0 < INR (n * 12).
Proof. intros H. apply lt_0_INR. lia. Qed.

Lemma calculateMortgagePayment_fin_zero (P : R) (n : nat) :
  (0 < n)%nat ->
  calculateMortgagePayment (Fin P) (Fin 0) n = Fin (P / INR (n * 12)).
Proof.
  intros Hn. rewrite calculateMortgagePayment_zero_rate. num_cbn.
  apply ndiv_fin. pose proof (INR_months_pos n Hn). lra.
Qed.

Lemma calculateMortgagePayment_fin_pos (P a : R) (n : nat) :
  0 < a -> (0 < n)%nat ->
  calculateMortgagePayment (Fin P) (Fin a) n = Fin (annuity P (a / 100 / 12) (n * 12)).
Proof.
  intros Ha Hn. unfold calculateMortgagePayment. rewrite monthlyRate_fin.
  assert (0 < a / 100 / 12) as Hr by lra.
  rewrite neq_fin_false by lra.
  num_cbn. rewrite npow_fin. num_cbn.
  rewrite ndiv_fin; [reflexivity|].
  pose proof (growth_gt_1 _ Hr (n * 12) ltac:(lia)). lra.
Qed.

Lemma calculateMortgageBalance_fin_zero (P M e : R) (y : nat) :
  calculateMortgageBalance (Fin P) (Fin 0) (Fin M) (Fin e) y
  = Fin (Rmax 0 (P - (M + e / 12) * INR (y * 12))).
Proof.
  unfold calculateMortgageBalance. rewrite monthlyRate_fin.
  rewrite neq_fin_true by lra.
  rewrite ndiv_fin by lra. num_cbn. rewrite nmax_fin. reflexivity.
Qed.

Lemma calculateMortgageBalance_fin_pos (P a M e : R) (y : nat) :
  0 < a ->
  calculateMortgageBalance (Fin P) (Fin a) (Fin M) (Fin e) y
  = Fin (Rmax 0 (balanceFormula P (a / 100 / 12) (M + e / 12) (y * 12))).
Proof.
  intros Ha. unfold calculateMortgageBalance. rewrite monthlyRate_fin.
  assert (0 < a / 100 / 12) as Hr by lra.
  rewrite neq_fin_false by lra.
  rewrite (ndiv_fin e 12) by lra. num_cbn. rewrite npow_fin. num_cbn.
  rewrite ndiv_fin by lra. num_cbn. rewrite nmax_fin. reflexivity.
Qed.

Lemma calculatePayoffTime_no_extra (principal annualRate monthlyPayment : num) (e : R) :
  e <= 0 ->
  calculatePayoffTime principal annualRate monthlyPayment (Fin e) = Fin 30.
Proof.
  intros He. unfold calculatePayoffTime. num_cbn.
  rewrite Rleb_true by assumption. reflexivity.
Qed.

Lemma calculatePayoffTime_fin_zero (P M e : R) :
  0 < e -> M + e / 12 <> 0 ->
  calculatePayoffTime (Fin P) (Fin 0) (Fin M) (Fin e)
  = Fin (P / ((M + e / 12) * 12)).
Proof.
  intros He HT. unfold calculatePayoffTime. num_cbn.
  rewrite Rleb_false by assumption. rewrite monthlyRate_fin.
  rewrite neq_fin_true by lra.
  rewrite (ndiv_fin e 12) by lra. num_cbn.
  apply ndiv_fin. lra.
Qed.

Lemma calculatePayoffTime_fin_pos (P a M e : R) :
  0 < a -> 0 < e -> 0 < M + e / 12 -> P * (a / 100 / 12) < M + e / 12 ->
  calculatePayoffTime (Fin P) (Fin a) (Fin M) (Fin e)
  = Fin (Rmax (1 / 10) (payoffMonths P (a / 100 / 12) (M + e / 12) / 12)).
Proof.
  intros Ha He HT Hamort. unfold calculatePayoffTime. num_cbn.
  rewrite Rleb_false by assumption. rewrite monthlyRate_fin.
  assert (0 < a / 100 / 12) as Hr by lra.
  rewrite neq_fin_false by lra.
  rewrite (ndiv_fin e 12) by lra. num_cbn.
  rewrite ndiv_fin by lra. num_cbn.
  set (r := a / 100 / 12) in *. set (T := M + e / 12) in *.
  assert (0 < 1 + - (P * r / T)) as Harg.
  { assert (P * r / T < 1); [|lra].
    apply Rmult_lt_reg_r with T; [assumption|].
    unfold Rdiv. rewrite Rmult_assoc, Rinv_l by lra. lra. }
  unfold nlog.
  rewrite (Rltb_false (1 + - (P * r / T))) by lra.
  rewrite (Reqb_false (1 + - (P * r / T))) by lra.
  rewrite (Rltb_false (1 + r)) by lra.
  rewrite (Reqb_false (1 + r)) by lra.
  num_cbn.
  pose proof (ln_growth_pos r Hr) as Hl.
  rewrite ndiv_fin by lra. rewrite ndiv_fin by lra.
  rewrite nmax_fin. reflexivity.
Qed.

(** ** The payoff time and the yearly balances of a loan *)

Lemma INR_12 : INR 12 = 12.
Proof. rewrite INR_IZR_INZ. reflexivity. Qed.

Lemma INR_months (y : nat) : INR (y * 12) = INR y * 12.
Proof. rewrite mult_INR, INR_12. reflexivity. Qed.

Lemma INR_30 : INR 30 = 30.
Proof. rewrite INR_IZR_INZ. reflexivity. Qed.

Lemma Rmax_0_nonneg (x : R) : 0 <= Rmax 0 x.
Proof. apply Rmax_l. Qed.

Lemma Rmax_0_antitone (x y : R) : x <= y -> Rmax 0 x <= Rmax 0 y.
Proof. intros H. unfold Rmax. destruct (Rle_dec 0 x), (Rle_dec 0 y); lra. Qed.

Lemma Rmax_0_nonpos (x : R) : x <= 0 -> Rmax 0 x = 0.
Proof. intros H. unfold Rmax. destruct (Rle_dec 0 x); lra. Qed.

(** A loan without interest, repaid with at least [L / 360] a month. *)
Lemma loan_schedule_zero_rate (L e : R) :
  0 < L -> 0 <= e ->
  exists p B, LoanSchedule L 0 (L / INR (30 * 12)) e p B.
Proof.
  intros HL He.
  assert (INR (30 * 12) = 360) as HN by (rewrite INR_months, INR_30; lra).
  rewrite HN.
  set (M := L / 360). set (T := M + e / 12).
  assert (0 < M) as HM by (unfold M; lra).
  assert (M <= T) as HMT by (unfold T; lra).
  set (B := fun y : nat => Rmax 0 (L - T * INR (y * 12))).
  assert (forall y, calculateMortgageBalance (Fin L) (Fin 0) (Fin M) (Fin e) y = Fin (B y)) as HB.
  { intros y. apply calculateMortgageBalance_fin_zero. }
  assert (forall y, 0 <= B y) as Hnn by (intros y; apply Rmax_0_nonneg).
  assert (forall y y', (y <= y')%nat -> B y' <= B y) as Hanti.
  { intros y y' Hy. unfold B. apply Rmax_0_antitone.
    rewrite !INR_months. apply le_INR in Hy. nra. }
  destruct (Rle_lt_dec e 0) as [He0 | He0].
  - exists 30, B. repeat split; try assumption; try lra.
    + apply calculatePayoffTime_no_extra. assumption.
    + intros y Hy. unfold B. apply Rmax_0_nonpos. rewrite INR_months.
      assert (L = M * 360) as HLM by (unfold M; field).
      rewrite <- INR_30 in Hy. pose proof (pos_INR y). rewrite INR_30 in Hy. nra.
  - assert (0 < T * 12) as HT12 by lra.
    assert (0 < L / (T * 12)) as Hp by (apply Rdiv_lt_0_compat; lra).
    assert (L / (T * 12) * (T * 12) = L) as Hpe by (field; lra).
    exists (L / (T * 12)), B. repeat split; try assumption.
    + apply calculatePayoffTime_fin_zero; lra.
    + apply Rmult_le_reg_r with (T * 12); [assumption|]. rewrite Hpe.
      assert (L = M * 360) as HLM by (unfold M; field). lra.
    + intros y Hy. unfold B. apply Rmax_0_nonpos. rewrite INR_months.
      apply Rmult_le_compat_r with (r := T * 12) in Hy; [|lra].
      rewrite Hpe in Hy. lra.
Qed.

(** A loan at a positive rate, repaid with at least the 30-year annuity. *)
Lemma loan_schedule_pos_rate (L a e : R) :
  0 < L -> 0 < a -> 0 <= e ->
  exists p B, LoanSchedule L a (annuity L (a / 100 / 12) (30 * 12)) e p B.
Proof.
  intros HL Ha He.
  set (r := a / 100 / 12). assert (0 < r) as Hr by (unfold r; lra).
  set (N := (30 * 12)%nat). assert (0 < N)%nat as HN by (unfold N; lia).
  set (M := annuity L r N). set (T := M + e / 12).
  pose proof (annuity_gt_interest L r Hr N HL HN) as HM. fold M in HM.
  assert (M <= T) as HMT by (unfold T; lra).
  assert (L * r < T) as HT by lra.
  assert (0 < T) as HT0 by nra.
  set (B := fun y : nat => Rmax 0 (balanceFormula L r T (y * 12))).
  assert (forall y, calculateMortgageBalance (Fin L) (Fin a) (Fin M) (Fin e) y = Fin (B y)) as HB.
  { intros y. apply calculateMortgageBalance_fin_pos. assumption. }
  assert (forall y, 0 <= B y) as Hnn by (intros y; apply Rmax_0_nonneg).
  assert (forall y y', (y <= y')%nat -> B y' <= B y) as Hanti.
  { intros y y' Hy. unfold B. apply Rmax_0_antitone.
    apply balanceFormula_antitone; [assumption | lra | lia]. }
  assert (balanceFormula L r T N <= 0) as HFN.
  { rewrite <- (balanceFormula_annuity L r Hr N HN). fold M.
    apply balanceFormula_payment_antitone; assumption. }
  destruct (Rle_lt_dec e 0) as [He0 | He0].
  - exists 30, B. repeat split; try assumption; try lra.
    + apply calculatePayoffTime_no_extra. assumption.
    + intros y Hy. unfold B. apply Rmax_0_nonpos.
      apply Rle_trans with (balanceFormula L r T N); [|assumption].
      apply balanceFormula_antitone; [assumption | lra |].
      unfold N. rewrite <- INR_30 in Hy. apply INR_le in Hy. lia.
  - pose proof (payoffMonths_pos L r Hr T HL HT) as Hm.
    set (p := Rmax (1 / 10) (payoffMonths L r T / 12)).
    assert (payoffMonths L r T / 12 <= p) as Hp1 by apply Rmax_r.
    assert (1 / 10 <= p) as Hp2 by apply Rmax_l.
    assert (payoffMonths L r T <= INR N) as HmN.
    { apply (balanceFormula_nonpos_iff L r Hr T N HL HT). assumption. }
    exists p, B. repeat split; try assumption; try lra.
    + apply calculatePayoffTime_fin_pos; assumption.
    + unfold p. apply Rmax_lub; [lra|].
      unfold N in HmN. rewrite INR_months, INR_30 in HmN. lra.
    + intros y Hy. unfold B. apply Rmax_0_nonpos.
      apply (balanceFormula_nonpos_iff L r Hr T (y * 12) HL HT).
      rewrite INR_months. lra.
Qed.

(** ** The schedule of a parameter set *)

Ltac destruct_fin a :=
  match goal with
  | H : is_finite a |- _ => destruct a; cbn [is_finite] in H; try contradiction
  | H : nonneg a |- _ => destruct a; cbn [nonneg] in H; try contradiction
  end.

Lemma schedule_of_loan (inputs : InvestmentInputs) (L a M e p : R) (B : nat -> R) :
  loanAmount inputs = Fin L -> 0 < L ->
  mortgageRate inputs = Fin a ->
  monthlyMortgage inputs = Fin M ->
  extraAnnualPayment inputs = Fin e ->
  LoanSchedule L a M e p B ->
  Schedule inputs p B.
Proof.
  intros HL HL0 Ha HM He (Hp & HB & Hr & Hnn & Hanti & Hpaid).
  split; try assumption; try lra.
  - unfold payoffTime. rewrite HL, Ha, HM, He. num_cbn.
    rewrite Rltb_true by assumption. assumption.
  - intros y. rewrite HL, Ha, HM, He. apply HB.
  - intros y _ Hy. apply Hpaid. assumption.
  - rewrite HL, HM, He. cbn [is_finite]. tauto.
Qed.

Lemma extraAnnualPayment_fin (inputs : InvestmentInputs) (yi M oc : R) :
  yearlyInvestment inputs = Fin yi ->
  monthlyMortgage inputs = Fin M ->
  ownersCorp inputs = Fin oc ->
  extraAnnualPayment inputs = Fin (Rmax 0 (yi - (M * 12 + oc))).
Proof.
  intros Hyi HM Hoc. unfold extraAnnualPayment, annualMortgageCosts.
  rewrite Hyi, HM, Hoc. num_cbn. rewrite nmax_fin. reflexivity.
Qed.

(** With a loan, the engine's payoff time is positive and at most 30. *)
Lemma schedule_with_loan (inputs : InvestmentInputs) :
  loan_fields_ok inputs -> (loanAmount inputs >? 0)%num = true ->
  exists p B, Schedule inputs p B /\ 0 < p.
Proof.
  intros (Hinw & Hyi & Hhc & Ha & Hoc) Hloan.
  destruct inputs as [inw yi wr sar hc a hg oc].
  cbn [initialNetWorth yearlyInvestment houseCost mortgageRate ownersCorp] in *.
  destruct_fin inw. destruct_fin yi. destruct_fin hc. destruct_fin a. destruct_fin oc.
  rename x into inw, x0 into yi, x1 into hc, x2 into a, x3 into oc.
  set (inputs := mkInputs (Fin inw) (Fin yi) wr sar (Fin hc) (Fin a) hg (Fin oc)) in *.
  assert (loanAmount inputs = Fin (hc - inw)) as HL by reflexivity.
  rewrite HL in Hloan. cbn [ngt nlt] in Hloan. apply Rltb_iff in Hloan.
  destruct Ha as [Ha | Ha].
  - assert (monthlyMortgage inputs = Fin (annuity (hc - inw) (a / 100 / 12) (30 * 12))) as HM.
    { unfold monthlyMortgage. rewrite HL. cbn [ngt nlt].
      rewrite Rltb_true by assumption.
      apply calculateMortgagePayment_fin_pos; [assumption | lia]. }
    pose proof (extraAnnualPayment_fin inputs yi _ oc eq_refl HM eq_refl) as He.
    destruct (loan_schedule_pos_rate (hc - inw) a _ Hloan Ha (Rmax_0_nonneg (yi - (annuity (hc - inw) (a / 100 / 12) (30 * 12) * 12 + oc))))
      as (p & B & HS).
    exists p, B. split.
    + apply (schedule_of_loan inputs _ a _ _ p B HL Hloan eq_refl HM He HS).
    + destruct HS as (_ & _ & Hp & _). lra.
  - subst a.
    assert (monthlyMortgage inputs = Fin ((hc - inw) / INR (30 * 12))) as HM.
    { unfold monthlyMortgage. rewrite HL. cbn [ngt nlt].
      rewrite Rltb_true by assumption.
      apply calculateMortgagePayment_fin_zero. lia. }
    pose proof (extraAnnualPayment_fin inputs yi _ oc eq_refl HM eq_refl) as He.
    destruct (loan_schedule_zero_rate (hc - inw) _ Hloan (Rmax_0_nonneg (yi - ((hc - inw) / INR (30 * 12) * 12 + oc))))
      as (p & B & HS).
    exists p, B. split.
    + apply (schedule_of_loan inputs _ 0 _ _ p B HL Hloan eq_refl HM He HS).
    + destruct HS as (_ & _ & Hp & _). lra.
Qed.

(** Without a loan the payoff time is 0 and the balance is 0 in every year. *)
Lemma schedule_no_loan (inputs : InvestmentInputs) :
  loan_fields_ok inputs -> (loanAmount inputs >? 0)%num = false ->
  Schedule inputs 0 (fun _ => 0).
Proof.
  intros (Hinw & Hyi & Hhc & Ha & Hoc) Hloan.
  destruct inputs as [inw yi wr sar hc a hg oc].
  cbn [initialNetWorth yearlyInvestment houseCost mortgageRate ownersCorp] in *.
  destruct_fin inw. destruct_fin yi. destruct_fin hc. destruct_fin a. destruct_fin oc.
  rename x into inw, x0 into yi, x1 into hc, x2 into a, x3 into oc.
  set (inputs := mkInputs (Fin inw) (Fin yi) wr sar (Fin hc) (Fin a) hg (Fin oc)) in *.
  assert (loanAmount inputs = Fin (hc - inw)) as HL by reflexivity.
  assert (monthlyMortgage inputs = Fin 0) as HM.
  { unfold monthlyMortgage. rewrite Hloan. reflexivity. }
  pose proof (extraAnnualPayment_fin inputs yi _ oc eq_refl HM eq_refl) as He.
  pose proof (Rmax_0_nonneg (yi - (0 * 12 + oc))) as He0.
  set (e := Rmax 0 (yi - (0 * 12 + oc))) in *.
  assert (hc - inw <= 0) as HL0.
  { rewrite HL in Hloan. cbn [ngt nlt] in Hloan.
    destruct (Rle_lt_dec (hc - inw) 0) as [H | H]; [assumption|].
    rewrite Rltb_true in Hloan by assumption. discriminate. }
  split; try lra.
  - unfold payoffTime. rewrite Hloan. reflexivity.
  - intros y. rewrite HL, HM, He. cbn [mortgageRate inputs].
    destruct Ha as [Ha | Ha].
    + rewrite calculateMortgageBalance_fin_pos by assumption. f_equal.
      apply Rmax_0_nonpos. unfold balanceFormula.
      assert (0 < a / 100 / 12) as Hr by lra.
      pose proof (growth_ge_1 _ Hr (y * 12)) as Hq.
      assert (0 <= ((1 + a / 100 / 12) ^ (y * 12) - 1) / (a / 100 / 12)) as Hc.
      { apply Rmult_le_pos; [lra|]. left. apply Rinv_0_lt_compat. assumption. }
      nra.
    + subst a. rewrite calculateMortgageBalance_fin_zero. f_equal.
      apply Rmax_0_nonpos. pose proof (pos_INR (y * 12)). nra.
  - intros; lra.
  - intros; lra.
  - reflexivity.
  - rewrite HL, HM, He. cbn [is_finite]. tauto.
Qed.

Lemma schedule_exists (inputs : InvestmentInputs) :
  loan_fields_ok inputs -> exists p B, Schedule inputs p B.
Proof.
  intros H. destruct (loanAmount inputs >? 0)%num eqn:Hloan.
  - destruct (schedule_with_loan inputs H Hloan) as (p & B & HS & _). eauto.
  - exists 0, (fun _ => 0). apply schedule_no_loan; assumption.
Qed.

Lemma valid_loan_fields_ok (inputs : InvestmentInputs) :
  valid inputs -> loan_fields_ok inputs.
Proof.
  intros (H1 & H2 & H3 & H4 & H5 & H6 & H7 & H8).
  unfold loan_fields_ok.
  destruct (initialNetWorth inputs), (yearlyInvestment inputs), (houseCost inputs),
    (ownersCorp inputs); cbn [nonneg is_finite] in *; tauto.
Qed.

(** ** The loop of [calculateProjections] *)

Section Loop.

Variable inputs : InvestmentInputs.

Lemma projectionLoop_step (fuel year : nat) (sv cr co : num) :
  projectionLoop inputs (S fuel) year sv cr co =
  if (of_nat year <=? maxYears inputs)%num then
    let cr' := (cr + annualRent inputs)%num in
    let sv' := stockStep inputs sv in
    let co' := (co + ownersCorp inputs)%num in
    if stops inputs year then [snapshot inputs year sv' cr' co']
    else snapshot inputs year sv' cr' co' :: projectionLoop inputs fuel (S year) sv' cr' co'
  else [].
Proof. reflexivity. Qed.

(** Whatever the inputs, the loop returns the snapshots of its first
    iterations. *)
Lemma projectionLoop_snapshots (fuel year : nat) (sv cr co : num) :
  exists n, (n <= fuel)%nat /\
    projectionLoop inputs fuel year sv cr co = snapshots inputs n year sv cr co.
Proof.
  revert year sv cr co. induction fuel as [|fuel IH]; intros year sv cr co.
  - exists O. split; [lia | reflexivity].
  - rewrite projectionLoop_step.
    destruct (of_nat year <=? maxYears inputs)%num.
    + cbv zeta. destruct (stops inputs year).
      * exists 1%nat. split; [lia | reflexivity].
      * destruct (IH (S year) (stockStep inputs sv) (cr + annualRent inputs)%num
                    (co + ownersCorp inputs)%num) as (n & Hn & Heq).
        exists (S n). split; [lia|]. rewrite Heq. reflexivity.
    + exists O. split; [lia | reflexivity].
Qed.

(** The loop runs through year [year + k] and stops there when the guard
    holds up to that year and the [break] test first succeeds in it. *)
Lemma projectionLoop_run (k fuel year : nat) (sv cr co : num) :
  (k < fuel)%nat ->
  (forall y, (year <= y <= year + k)%nat -> (of_nat y <=? maxYears inputs)%num = true) ->
  (forall y, (year <= y < year + k)%nat -> stops inputs y = false) ->
  stops inputs (year + k) = true ->
  projectionLoop inputs fuel year sv cr co = snapshots inputs (S k) year sv cr co.
Proof.
  revert fuel year sv cr co. induction k as [|k IH]; intros fuel year sv cr co Hf Hg Hns Hs.
  - destruct fuel as [|fuel]; [lia|]. rewrite projectionLoop_step.
    rewrite Hg by lia. cbv zeta. rewrite Nat.add_0_r in Hs. rewrite Hs. reflexivity.
  - destruct fuel as [|fuel]; [lia|]. rewrite projectionLoop_step.
    rewrite Hg by lia. cbv zeta. rewrite Hns by lia.
    rewrite (IH fuel (S year)); [reflexivity | lia | | |].
    + intros y Hy. apply Hg. lia.
    + intros y Hy. apply Hns. lia.
    + replace (S year + k)%nat with (year + S k)%nat by lia. assumption.
Qed.


(** The [t]-th snapshot belongs to year [year + t]. *)
Lemma snapshots_nth (n year : nat) (sv cr co : num) (t : nat) (pr : YearlyProjection) :
  nth_error (snapshots inputs n year sv cr co) t = Some pr ->
  exists sv' cr' co',
    pr = snapshot inputs (year + t) sv' cr' co' /\
    sv' = Nat.iter (S t) (stockStep inputs) sv.
Proof.
  revert year sv cr co t. induction n as [|n IH]; intros year sv cr co t H.
  - destruct t; discriminate.
  - destruct t as [|t]; cbn [snapshots nth_error] in H.
    + injection H as <-. rewrite Nat.add_0_r. do 3 eexists. split; reflexivity.
    + destruct (IH _ _ _ _ _ H) as (sv' & cr' & co' & Hpr & Hsv).
      exists sv', cr', co'. split.
      * rewrite Hpr. f_equal. lia.
      * rewrite Hsv. symmetry. apply (Nat.iter_succ_r (S t)).
Qed.

End Loop.

(** ** The shape of the output under a schedule *)

Lemma Rmax_IZR (a b : Z) : Rmax (IZR a) (IZR b) = IZR (Z.max a b).
Proof.
  unfold Rmax. destruct (Rle_dec (IZR a) (IZR b)) as [H | H].
  - apply le_IZR in H. rewrite Z.max_r by assumption. reflexivity.
  - rewrite Z.max_l; [reflexivity|].
    destruct (Z.le_ge_cases b a) as [Hba | Hab]; [assumption|].
    exfalso. apply H. apply IZR_le. assumption.
Qed.

Lemma floorZ_nonneg (p : R) : 0 <= p -> (0 <= floorZ p)%Z.
Proof.
  intros Hp. pose proof (floorZ_gt p) as H.
  assert (IZR (-1) < IZR (floorZ p)) as H1 by lra.
  apply lt_IZR in H1. lia.
Qed.

Lemma floorZ_le_ceilZ (p : R) : (floorZ p <= ceilZ p)%Z.
Proof.
  apply le_IZR. apply Rle_trans with p; [apply floorZ_le | apply ceilZ_ge].
Qed.

Lemma INR_floor (p : R) : 0 <= p -> INR (Z.to_nat (floorZ p)) = IZR (floorZ p).
Proof.
  intros Hp. rewrite INR_IZR_INZ, Z2Nat.id; [reflexivity | apply floorZ_nonneg; assumption].
Qed.

Section Shape.

Variables (inputs : InvestmentInputs) (p : R) (B : nat -> R).
Hypothesis HS : Schedule inputs p B.

Lemma schedule_maxYears : maxYears inputs = Fin (IZR (Z.max 5 (ceilZ p + 2))).
Proof.
  unfold maxYears. rewrite (sched_payoff _ _ _ HS). cbn [nceil nadd].
  rewrite nmax_fin. rewrite <- Rmax_IZR, plus_IZR. reflexivity.
Qed.

Lemma schedule_stops (y : nat) :
  (1 <= y)%nat -> stops inputs y = Rltb p (INR y).
Proof.
  intros Hy. unfold stops.
  rewrite (sched_balance _ _ _ HS), (sched_payoff _ _ _ HS).
  cbn [nle ngt nlt of_nat].
  destruct (Rlt_dec p (INR y)) as [H | H].
  - rewrite (Rltb_true _ _ H).
    rewrite (sched_paid _ _ _ HS y Hy) by lra.
    rewrite Rleb_true by lra. reflexivity.
  - rewrite Rltb_false by lra. apply andb_false_r.
Qed.

(** The loop stops in the first year after the payoff time, before the
    horizon [maxYears]. *)
Lemma schedule_projections :
  calculateProjections inputs
  = Some (snapshots inputs (S (Z.to_nat (floorZ p))) 1 (initialNetWorth inputs) 0 0).
Proof.
  pose proof (sched_range _ _ _ HS) as [Hp0 Hp30].
  pose proof (floorZ_nonneg p Hp0) as Hf0.
  pose proof (floorZ_le_ceilZ p) as Hfc.
  pose proof (INR_floor p Hp0) as HINR.
  unfold calculateProjections. rewrite schedule_maxYears.
  cbn [loopBound]. rewrite floorZ_IZR. f_equal.
  apply projectionLoop_run.
  - lia.
  - intros y Hy. rewrite schedule_maxYears. cbn [nle of_nat]. apply Rleb_true.
    rewrite INR_IZR_INZ. apply IZR_le. lia.
  - intros y Hy. rewrite schedule_stops by lia. apply Rltb_false.
    apply Rle_trans with (IZR (floorZ p)); [|apply floorZ_le].
    rewrite INR_IZR_INZ. apply IZR_le. lia.
  - rewrite schedule_stops by lia. apply Rltb_true.
    rewrite plus_INR, HINR. cbn [INR]. pose proof (floorZ_gt p). lra.
Qed.


End Shape.

(** ** The iteration bound of [calculateProjections] *)

(** With [maxYears = +Infinity] neither the guard nor the [break] test ever
    ends the loop: it uses up any fuel. *)
Lemma projectionLoop_unbounded (inputs : InvestmentInputs) :
  maxYears inputs = PInf ->
  forall fuel year sv cr co,
    length (projectionLoop inputs fuel year sv cr co) = fuel.
Proof.
  intros Hmax.
  assert (payoffTime inputs = PInf) as Hp.
  { unfold maxYears in Hmax. destruct (payoffTime inputs) as [x| | |];
      cbn [nceil nadd nmax nle] in Hmax.
    - destruct (Rleb 5 (IZR (ceilZ x) + 2)); discriminate.
    - reflexivity.
    - discriminate.
    - discriminate. }
  induction fuel as [|fuel IH]; intros year sv cr co; [reflexivity|].
  rewrite projectionLoop_step. rewrite Hmax. cbn [nle of_nat]. cbv zeta.
  unfold stops. rewrite Hp. cbn [ngt nlt of_nat]. rewrite andb_false_r.
  cbn [length]. rewrite IH. reflexivity.
Qed.

(** With a finite [maxYears] the guard fails after [floor maxYears]
    iterations: more fuel changes nothing. *)
Lemma projectionLoop_fuel (inputs : InvestmentInputs) (m : R) :
  maxYears inputs = Fin m ->
  forall fuel fuel' year sv cr co,
    (fuel <= fuel')%nat -> m < INR (year + fuel) ->
    projectionLoop inputs fuel' year sv cr co = projectionLoop inputs fuel year sv cr co.
Proof.
  intros Hmax. induction fuel as [|fuel IH]; intros fuel' year sv cr co Hle Hm.
  - rewrite Nat.add_0_r in Hm. destruct fuel' as [|fuel']; [reflexivity|].
    rewrite projectionLoop_step, Hmax. cbn [nle of_nat].
    rewrite Rleb_false by assumption. reflexivity.
  - destruct fuel' as [|fuel']; [lia|].
    rewrite !projectionLoop_step.
    destruct (of_nat year <=? maxYears inputs)%num; [|reflexivity].
    cbv zeta. destruct (stops inputs year); [reflexivity|].
    f_equal. apply IH; [lia|].
    replace (S year + fuel)%nat with (year + S fuel)%nat by lia. assumption.
Qed.

Lemma loopBound_enough (inputs : InvestmentInputs) (m : R) (fuel : nat) :
  maxYears inputs = Fin m -> (Z.to_nat (floorZ m) <= fuel)%nat ->
  calculateProjections inputs
  = Some (projectionLoop inputs fuel 1 (initialNetWorth inputs) 0 0).
Proof.
  intros Hmax Hfuel. unfold calculateProjections. rewrite Hmax. cbn [loopBound].
  f_equal. symmetry. apply (projectionLoop_fuel inputs m Hmax); [assumption|].
  pose proof (floorZ_gt m) as Hgt.
  rewrite plus_INR. cbn [INR].
  destruct (Z.le_gt_cases 0 (floorZ m)) as [H0 | H0].
  - rewrite INR_IZR_INZ, Z2Nat.id by assumption. lra.
  - assert (IZR (floorZ m) < IZR 0) as H1 by (apply IZR_lt; lia).
    pose proof (pos_INR (Z.to_nat (floorZ m))). lra.
Qed.

Lemma calculateProjections_snapshots (inputs : InvestmentInputs) (l : list YearlyProjection) :
  calculateProjections inputs = Some l ->
  exists n, l = snapshots inputs n 1 (initialNetWorth inputs) 0 0.
Proof.
  unfold calculateProjections. destruct (loopBound (maxYears inputs)) as [fuel|]; [|discriminate].
  intros H. injection H as <-.
  destruct (projectionLoop_snapshots inputs fuel 1 (initialNetWorth inputs) 0 0) as (n & _ & Hn).
  exists n. assumption.
Qed.

(** What a snapshot of the output holds. *)
Lemma calculateProjections_nth (inputs : InvestmentInputs) (l : list YearlyProjection)
  (t : nat) (pr : YearlyProjection) :
  calculateProjections inputs = Some l -> nth_error l t = Some pr ->
  exists cr co,
    pr = snapshot inputs (S t) (Nat.iter (S t) (stockStep inputs) (initialNetWorth inputs)) cr co.
Proof.
  intros Hl Ht. destruct (calculateProjections_snapshots inputs l Hl) as (n & ->).
  destruct (snapshots_nth inputs _ _ _ _ _ _ _ Ht) as (sv' & cr' & co' & Hpr & Hsv).
  exists cr', co'. rewrite Hpr, Hsv. reflexivity.
Qed.

Lemma stockStep_fin (inputs : InvestmentInputs) (v s y w : R) :
  stockAnnualReturn inputs = Fin s -> yearlyInvestment inputs = Fin y ->
  weeklyRent inputs = Fin w ->
  stockStep inputs (Fin v) = Fin (v * (1 + s / 100) + (y - 52 * w)).
Proof.
  intros Hs Hy Hw. unfold stockStep. rewrite Hs, Hy, Hw.
  rewrite ndiv_fin by lra. cbn [nadd nsub nmul nneg]. f_equal. lra.
Qed.

(** ** Finite parameters give finite snapshots *)

Lemma is_finite_fin (a : num) : is_finite a -> exists x, a = Fin x.
Proof. destruct a; cbn; intros H; try contradiction. eauto. Qed.

Lemma nonneg_fin (a : num) : nonneg a -> exists x, a = Fin x /\ 0 <= x.
Proof. destruct a; cbn; intros H; try contradiction. eauto. Qed.



Section FiniteSnapshots.

Variables (inputs : InvestmentInputs) (p : R) (B : nat -> R).
Hypothesis Hvalid : valid inputs.
Hypothesis HS : Schedule inputs p B.



End FiniteSnapshots.

(** ** The scenarios *)

Ltac solve_valid :=
  unfold valid, loan_fields_ok; cbn; repeat split; try exact I; lra.

Lemma scenarioA_valid : valid scenarioA.
Proof. solve_valid. Qed.

Lemma scenarioB_valid : valid scenarioB.
Proof. solve_valid. Qed.

Lemma scenarioC_valid : valid scenarioC.
Proof. solve_valid. Qed.




Lemma scenarioB_loan : (loanAmount scenarioB >? 0)%num = true.
Proof. cbn. apply Rltb_true. lra. Qed.

Lemma scenarioC_no_loan : (houseCost scenarioC <=? initialNetWorth scenarioC)%num = true.
Proof. cbn. apply Rleb_true. lra. Qed.


(** ** The output of the engine on valid parameters *)

Lemma no_loan_of_cost_le (inputs : InvestmentInputs) :
  (houseCost inputs <=? initialNetWorth inputs)%num = true ->
  (loanAmount inputs >? 0)%num = false.
Proof.
  unfold loanAmount.
  destruct (houseCost inputs) as [h| | |], (initialNetWorth inputs) as [w| | |];
    cbn; intros H; try discriminate; try reflexivity.
  apply Rleb_iff in H. apply Rltb_false. lra.
Qed.



(** * The claims *)

(** ** C1: the horizon *)

(** On valid parameters the engine returns the snapshots of the years
    [1 .. floor payoffTime + 1]. *)
Lemma valid_projections (inputs : InvestmentInputs) :
  loan_fields_ok inputs ->
  exists p B, Schedule inputs p B /\
    calculateProjections inputs
    = Some (snapshots inputs (S (Z.to_nat (floorZ p))) 1 (initialNetWorth inputs) 0 0).
Proof.
  intros H. destruct (schedule_exists inputs H) as (p & B & HS).
  exists p, B. split; [assumption | apply (schedule_projections inputs p B HS)].
Qed.




(** ** C2: the mortgage balance retires *)





(** ** C3: the payoff time of a loan that does not amortize *)




(** ** C4 and C10: the balance from year 30 on *)

Lemma INR_30_months : INR (30 * 12) = 360.
Proof. rewrite INR_months, INR_30. lra. Qed.

(** The engine's balance 30 years into a loan of 400,000 without interest
    that is paid with 1,000 a month. *)
Lemma engine_balance_year_30 :
  calculateMortgageBalance (Fin 400000) (Fin 0) (Fin 1000) (Fin 0) 30 = Fin 40000.
Proof.
  rewrite calculateMortgageBalance_fin_zero. f_equal.
  rewrite INR_30_months. unfold Rmax. destruct (Rle_dec 0 _); lra.
Qed.

(** The balance of the comparison table's copy in the same case. *)
Lemma table_balance_year_30 (principal annualRate monthlyPayment extra : num) (y : nat) :
  (30 <= y)%nat ->
  ComparisonTable.calculateMortgageBalance principal annualRate monthlyPayment extra y = Fin 0.
Proof.
  intros Hy. unfold ComparisonTable.calculateMortgageBalance. cbn [nge nle of_nat].
  rewrite Rleb_true; [reflexivity|]. rewrite <- INR_30. apply le_INR. assumption.
Qed.

(** The two copies agree before year 30. *)
Lemma balance_copies_agree_before_30
  (principal annualRate monthlyPayment extra : num) (y : nat) :
  (y < 30)%nat ->
  ComparisonTable.calculateMortgageBalance principal annualRate monthlyPayment extra y
  = calculateMortgageBalance principal annualRate monthlyPayment extra y.
Proof.
  intros Hy. unfold ComparisonTable.calculateMortgageBalance. cbn [nge nle of_nat].
  rewrite Rleb_false; [reflexivity|]. rewrite <- INR_30. apply lt_INR. assumption.
Qed.

(** The engine's balance is never negative. *)
Lemma engine_balance_not_negative
  (principal annualRate monthlyPayment extra : num) (y : nat) :
  (calculateMortgageBalance principal annualRate monthlyPayment extra y <? 0)%num = false.
Proof.
  assert (forall x : num, (nmax 0 x <? 0)%num = false) as Hmax.
  { intros [x| | |]; cbn [nmax nle]; try reflexivity.
    - unfold Rleb. destruct (Rle_dec 0 x); cbn [nlt]; apply Rltb_false; lra.
    - cbn [nlt]. apply Rltb_false; lra. }
  unfold calculateMortgageBalance.
  destruct (_ === _)%num; apply Hmax.
Qed.

(** C4.  The engine's calculateMortgageBalance is floored at 0, but it does
    not force the balance to 0 from year 30 on: 30 years into a loan of
    400,000 without interest paid with 1,000 a month it returns 40,000. *)
Theorem engine_balance_not_forced_to_zero :
  (forall principal annualRate monthlyPayment extra y,
     (calculateMortgageBalance principal annualRate monthlyPayment extra y <? 0)%num = false) /\
  calculateMortgageBalance (Fin 400000) (Fin 0) (Fin 1000) (Fin 0) 30 = Fin 40000 /\
  Fin 40000 <> Fin 0.
Proof.
  split; [exact engine_balance_not_negative|].
  split; [exact engine_balance_year_30|].
  intros H. injection H as H. lra.
Qed.

(** C10.  The engine's calculateMortgageBalance and the copy in the
    comparison table agree before year 30 and differ from year 30 on: for
    the loan above the engine returns 40,000 and the table's copy 0. *)
Theorem balance_copies_differ :
  (forall principal annualRate monthlyPayment extra y,
     (y < 30)%nat ->
     ComparisonTable.calculateMortgageBalance principal annualRate monthlyPayment extra y
     = calculateMortgageBalance principal annualRate monthlyPayment extra y) /\
  ComparisonTable.calculateMortgageBalance (Fin 400000) (Fin 0) (Fin 1000) (Fin 0) 30
  <> calculateMortgageBalance (Fin 400000) (Fin 0) (Fin 1000) (Fin 0) 30.
Proof.
  split; [exact balance_copies_agree_before_30|].
  rewrite engine_balance_year_30, table_balance_year_30 by lia.
  intros H. injection H as H. lra.
Qed.

(** ** C5: parameters that are not valid *)

Lemma snapshots_year (inputs : InvestmentInputs) (n y t : nat) (sv cr co : num)
  (pr : YearlyProjection) :
  nth_error (snapshots inputs n y sv cr co) t = Some pr -> year pr = (y + t)%nat.
Proof.
  intros H. destruct (snapshots_nth inputs _ _ _ _ _ _ _ H) as (sv' & cr' & co' & -> & _).
  reflexivity.
Qed.




(** ** C6: the unaffordable scenario *)


Lemma monthlyMortgage_pos_rate (inputs : InvestmentInputs) (L a : R) :
  loanAmount inputs = Fin L -> 0 < L -> mortgageRate inputs = Fin a -> 0 < a ->
  monthlyMortgage inputs = Fin (annuity L (a / 100 / 12) (30 * 12)).
Proof.
  intros HL HL0 Ha Ha0. unfold monthlyMortgage. rewrite HL, Ha. cbn [ngt nlt].
  rewrite Rltb_true by assumption.
  apply calculateMortgagePayment_fin_pos; [assumption | lia].
Qed.

Lemma scenarioB_unaffordable :
  (yearlyInvestment scenarioB <? annualMortgageCosts scenarioB)%num = true.
Proof.
  assert (loanAmount scenarioB = Fin 400000) as HL.
  { unfold loanAmount, scenarioB. cbn [houseCost initialNetWorth nsub nadd nneg]. f_equal. lra. }
  unfold annualMortgageCosts.
  rewrite (monthlyMortgage_pos_rate scenarioB 400000 (55 / 10) HL ltac:(lra) eq_refl ltac:(lra)).
  assert (0 < 55 / 10 / 100 / 12) as Hr by lra.
  pose proof (annuity_gt_interest 400000 _ Hr (30 * 12) ltac:(lra) ltac:(lia)) as HM.
  unfold scenarioB. cbn [ownersCorp yearlyInvestment nmul nadd nlt].
  apply Rltb_true. lra.
Qed.



(** ** C7: the stock path *)



(** ** C8: the property value *)

(** C8.  In every returned sequence the snapshot of year t has
    propertyValue = houseCost * (1 + houseGrowthRate/100)^t, computed from
    the purchase price and the year alone. *)
Theorem property_value_closed_form
  (inputs : InvestmentInputs) (l : list YearlyProjection) (t : nat) (pr : YearlyProjection) :
  calculateProjections inputs = Some l -> nth_error l t = Some pr ->
  year pr = S t /\
  propertyValue pr
  = (houseCost inputs * npow (1 + houseGrowthRate inputs / 100) (year pr))%num /\
  (forall h g, houseCost inputs = Fin h -> houseGrowthRate inputs = Fin g ->
     propertyValue pr = Fin (h * (1 + g / 100) ^ year pr)).
Proof.
  intros Hl Ht. destruct (calculateProjections_nth inputs l t pr Hl Ht) as (cr & co & ->).
  split; [reflexivity|]. split; [reflexivity|].
  intros h g Hh Hg. unfold snapshot. cbn [propertyValue year].
  rewrite Hh, Hg. rewrite ndiv_fin by lra. cbn [nadd]. rewrite npow_fin. reflexivity.
Qed.

(** The theorem at the first snapshot of scenario C. *)
Lemma property_value_closed_form_witness :
  exists l pr,
    calculateProjections scenarioC = Some l /\ nth_error l 0 = Some pr /\
    year pr = 1%nat /\
    propertyValue pr = Fin (500000 * (1 + 35 / 10 / 100) ^ year pr).
Proof.
  destruct (valid_projections _ (valid_loan_fields_ok _ scenarioC_valid)) as (p & B & HS & Hl).
  cbn [snapshots] in Hl. do 2 eexists. split; [exact Hl|]. split; [reflexivity|].
  pose proof (property_value_closed_form scenarioC _ 0 _ Hl eq_refl) as (H1 & _ & H3).
  split; [exact H1 | exact (H3 500000 (35 / 10) eq_refl eq_refl)].
Defined.

(** ** C9: zero in a field *)




(** * Further properties of the amortization helpers *)

(** ** Month-by-month amortization and the closed form *)

Lemma amortize_succ (r T b : R) (n : nat) :
  amortize r T b (S n) = amortize r T b n * (1 + r) - T.
Proof.
  revert b. induction n as [|n IH]; intros b; [reflexivity|].
  change (amortize r T b (S (S n))) with (amortize r T (b * (1 + r) - T) (S n)).
  rewrite IH. reflexivity.
Qed.

Lemma amortize_balanceFormula (P r T : R) (n : nat) :
  r <> 0 -> amortize r T P n = balanceFormula P r T n.
Proof.
  intros Hr. induction n as [|n IH].
  - unfold balanceFormula. cbn [amortize pow]. field. assumption.
  - rewrite amortize_succ, IH. unfold balanceFormula. cbn [pow]. field. assumption.
Qed.

Lemma amortize_zero_rate (P T : R) (n : nat) :
  amortize 0 T P n = P - T * INR n.
Proof.
  induction n as [|n IH].
  - cbn [amortize INR]. lra.
  - rewrite amortize_succ, IH, S_INR. lra.
Qed.



(** ** The interest loop *)

Lemma interestLoop_done (n : nat) (r T b t : R) :
  b <= 0 -> interestLoop n (Fin r) (Fin T) (Fin b) (Fin t) = Fin t.
Proof.
  intros Hb. destruct n as [|n]; [reflexivity|].
  cbn [interestLoop ngt nlt]. rewrite Rltb_false by assumption. reflexivity.
Qed.

Lemma interestLoop_step (n : nat) (r T b t : R) :
  0 < b ->
  interestLoop (S n) (Fin r) (Fin T) (Fin b) (Fin t)
  = interestLoop n (Fin r) (Fin T) (Fin (b - Rmin b (T - b * r))) (Fin (t + b * r)).
Proof.
  intros Hb. cbn [interestLoop ngt nlt]. rewrite Rltb_true by assumption.
  cbn [nmul nsub nadd nneg]. rewrite nmin_fin. reflexivity.
Qed.



Lemma interestLoop_monotone (n : nat) (r T b t : R) :
  0 <= r ->
  exists i i',
    interestLoop n (Fin r) (Fin T) (Fin b) (Fin t) = Fin i /\
    interestLoop (S n) (Fin r) (Fin T) (Fin b) (Fin t) = Fin i' /\
    t <= i <= i'.
Proof.
  intros Hr. revert b t. induction n as [|n IH]; intros b t.
  - destruct (Rle_lt_dec b 0) as [Hb | Hb].
    + exists t, t. rewrite !interestLoop_done by assumption. repeat split; lra.
    + exists t, (t + b * r). rewrite interestLoop_step by assumption.
      cbn [interestLoop]. repeat split; nra.
  - destruct (Rle_lt_dec b 0) as [Hb | Hb].
    + exists t, t. rewrite !interestLoop_done by assumption. repeat split; lra.
    + rewrite (interestLoop_step (S n)), (interestLoop_step n) by assumption.
      destruct (IH (b - Rmin b (T - b * r)) (t + b * r)) as (i & i' & E & E' & Hi).
      exists i, i'. repeat split; try assumption; nra.
Qed.

Lemma interestLoop_monotone_le (m n : nat) (r T b t : R) :
  0 <= r -> (m <= n)%nat ->
  exists i i',
    interestLoop m (Fin r) (Fin T) (Fin b) (Fin t) = Fin i /\
    interestLoop n (Fin r) (Fin T) (Fin b) (Fin t) = Fin i' /\
    t <= i <= i'.
Proof.
  intros Hr Hmn. induction Hmn as [|n Hmn IH].
  - destruct (interestLoop_monotone m r T b t Hr) as (i & i' & E & _ & Hi).
    exists i, i. repeat split; try assumption; lra.
  - destruct IH as (i & i' & E & E' & Hi).
    destruct (interestLoop_monotone n r T b t Hr) as (j & j' & F & F' & Hj).
    rewrite E' in F. injection F as <-.
    exists i, j'. repeat split; try assumption; lra.
Qed.

Lemma interestLoop_zero_rate (n : nat) (T b t : R) :
  interestLoop n (Fin 0) (Fin T) (Fin b) (Fin t) = Fin t.
Proof.
  revert b t. induction n as [|n IH]; intros b t; [reflexivity|].
  destruct (Rle_lt_dec b 0) as [Hb | Hb].
  - apply interestLoop_done. assumption.
  - rewrite interestLoop_step by assumption.
    replace (t + b * 0) with t by lra. apply IH.
Qed.

Lemma calculateInterestPaid_loop (P a M e : R) (y : nat) :
  calculateInterestPaid (Fin P) (Fin a) (Fin M) (Fin e) y
  = interestLoop (y * 12) (Fin (a / 100 / 12)) (Fin (M + e / 12)) (Fin P) (Fin 0).
Proof.
  unfold calculateInterestPaid. rewrite monthlyRate_fin, ndiv_fin by lra. reflexivity.
Qed.

Lemma Rmax_0_eq_0_iff (x : R) : Rmax 0 x = 0 <-> x <= 0.
Proof. unfold Rmax. destruct (Rle_dec 0 x); split; intros; lra. Qed.



(** The growth factor of [n] months is at most [1 + n r] times itself less
    one: the payments of a loan add up to at least the principal. *)
Lemma growth_minus_1_le (r : R) (n : nat) :
  0 <= r -> (1 + r) ^ n - 1 <= INR n * r * (1 + r) ^ n.
Proof.
  intros Hr. induction n as [|n IH].
  - cbn [pow INR]. lra.
  - rewrite S_INR. cbn [pow].
    assert (1 <= (1 + r) ^ n) as Hq by (apply pow_R1_Rle; lra).
    pose proof (pos_INR n) as Hn.
    assert (0 <= INR n * r * (1 + r) ^ n) as H0.
    { apply Rmult_le_pos; [apply Rmult_le_pos|]; lra. }
    nra.
Qed.

(** The value of the standard payment, with or without interest. *)
Lemma calculateMortgagePayment_amortize (P a : R) (n : nat) :
  0 <= a -> (0 < n)%nat ->
  exists M,
    calculateMortgagePayment (Fin P) (Fin a) n = Fin M /\
    amortize (a / 100 / 12) M P (n * 12) = 0 /\
    (0 < P -> P * (a / 100 / 12) < M /\ P <= M * INR (n * 12)).
Proof.
  intros [Ha | Ha] Hn.
  - assert (0 < a / 100 / 12) as Hr by lra.
    assert (0 < n * 12)%nat as HN by lia.
    exists (annuity P (a / 100 / 12) (n * 12)).
    split; [apply calculateMortgagePayment_fin_pos; assumption|].
    split.
    + rewrite amortize_balanceFormula by lra.
      apply balanceFormula_annuity; assumption.
    + intros HP. split; [apply annuity_gt_interest; assumption|].
      pose proof (growth_gt_1 _ Hr _ HN) as Hq.
      pose proof (growth_minus_1_le (a / 100 / 12) (n * 12) ltac:(lra)) as Hb.
      unfold annuity.
      set (A := (1 + a / 100 / 12) ^ (n * 12)) in *.
      set (r := a / 100 / 12) in *. set (N := INR (n * 12)) in *.
      replace (P * (r * A) / (A - 1) * N) with (P * (N * r * A / (A - 1))) by (field; lra).
      assert (1 <= N * r * A / (A - 1)) as H1.
      { apply Rmult_le_reg_r with (A - 1); [lra|].
        unfold Rdiv. rewrite Rmult_assoc, Rinv_l by lra. lra. }
      nra.
  - subst a. pose proof (INR_months_pos n Hn) as HN.
    exists (P / INR (n * 12)).
    split; [apply calculateMortgagePayment_fin_zero; assumption|].
    replace (0 / 100 / 12) with 0 by lra.
    split.
    + rewrite amortize_zero_rate. field. lra.
    + intros HP. split.
      * rewrite Rmult_0_r. apply Rdiv_lt_0_compat; assumption.
      * right. field. lra.
Qed.

(** ** The helpers together *)



(** X2.  For a positive principal the payment of calculateMortgagePayment
    exceeds the interest of the first month, and the payments of the whole
    term add up to at least the principal. *)
Theorem payment_covers_interest_and_principal (P a : R) (n : nat) :
  0 < P -> 0 <= a -> (0 < n)%nat ->
  exists M,
    calculateMortgagePayment (Fin P) (Fin a) n = Fin M /\
    P * (a / 100 / 12) < M /\
    P <= M * (INR n * 12).
Proof.
  intros HP Ha Hn.
  destruct (calculateMortgagePayment_amortize P a n Ha Hn) as (M & HM & _ & Hint).
  destruct (Hint HP) as [H1 H2]. rewrite INR_months in H2.
  exists M. repeat split; assumption.
Qed.

Lemma payment_covers_interest_and_principal_witness :
  exists M,
    calculateMortgagePayment (Fin 400000) (Fin (55 / 10)) 30 = Fin M /\
    400000 * (55 / 10 / 100 / 12) < M /\
    400000 <= M * (INR 30 * 12).
Proof.
  apply (payment_covers_interest_and_principal 400000 (55 / 10) 30); [lra | lra | lia].
Defined.

(** X3.  calculatePayoffTime and calculateMortgageBalance agree: with a
    positive extra payment and a total monthly payment above the monthly
    interest, the balance after a whole number y >= 1 of years is 0 exactly
    when y is at least the payoff time. *)
Theorem payoff_time_is_first_zero_balance (P a M e : R) (y : nat) :
  0 < P -> 0 <= a -> 0 < e -> P * (a / 100 / 12) < M + e / 12 -> (1 <= y)%nat ->
  exists p b,
    calculatePayoffTime (Fin P) (Fin a) (Fin M) (Fin e) = Fin p /\
    calculateMortgageBalance (Fin P) (Fin a) (Fin M) (Fin e) y = Fin b /\
    (b = 0 <-> p <= INR y).
Proof.
  intros HP Ha He HT Hy.
  assert (1 <= INR y) as HyR by (apply (le_INR 1); assumption).
  assert (0 < M + e / 12) as HT0.
  { assert (0 <= P * (a / 100 / 12)) by (apply Rmult_le_pos; lra). lra. }
  destruct Ha as [Ha | Ha].
  - assert (0 < a / 100 / 12) as Hr by lra.
    exists (Rmax (1 / 10) (payoffMonths P (a / 100 / 12) (M + e / 12) / 12)),
           (Rmax 0 (balanceFormula P (a / 100 / 12) (M + e / 12) (y * 12))).
    split; [apply calculatePayoffTime_fin_pos; assumption|].
    split; [apply calculateMortgageBalance_fin_pos; assumption|].
    rewrite Rmax_0_eq_0_iff.
    rewrite (balanceFormula_nonpos_iff P _ Hr _ (y * 12) HP HT).
    rewrite INR_months.
    unfold Rmax. destruct (Rle_dec (1 / 10) _); split; intros; lra.
  - subst a.
    exists (P / ((M + e / 12) * 12)), (Rmax 0 (P - (M + e / 12) * INR (y * 12))).
    split; [apply calculatePayoffTime_fin_zero; lra|].
    split; [apply calculateMortgageBalance_fin_zero|].
    rewrite Rmax_0_eq_0_iff, INR_months.
    assert (P / ((M + e / 12) * 12) * ((M + e / 12) * 12) = P) as E by (field; lra).
    split; intros H.
    + apply Rmult_le_reg_r with ((M + e / 12) * 12); [lra|]. rewrite E. lra.
    + apply Rmult_le_compat_r with (r := (M + e / 12) * 12) in H; [|lra].
      rewrite E in H. lra.
Qed.

Lemma payoff_time_is_first_zero_balance_witness :
  exists p b,
    calculatePayoffTime (Fin 400000) (Fin (55 / 10)) (Fin 2500) (Fin 6000) = Fin p /\
    calculateMortgageBalance (Fin 400000) (Fin (55 / 10)) (Fin 2500) (Fin 6000) 5 = Fin b /\
    (b = 0 <-> p <= INR 5).
Proof.
  apply (payoff_time_is_first_zero_balance 400000 (55 / 10) 2500 6000 5); try lra; lia.
Defined.

(** X4.  The interest of calculateInterestPaid is finite, never negative and
    never falls as yearsPaid grows, for finite arguments and a rate that is
    not negative; without interest rate it is 0. *)
Theorem interest_paid_monotone (P a M e : R) (y y' : nat) :
  0 <= a -> (y <= y')%nat ->
  exists i i',
    calculateInterestPaid (Fin P) (Fin a) (Fin M) (Fin e) y = Fin i /\
    calculateInterestPaid (Fin P) (Fin a) (Fin M) (Fin e) y' = Fin i' /\
    0 <= i <= i' /\
    (a = 0 -> i' = 0).
Proof.
  intros Ha Hy. rewrite !calculateInterestPaid_loop.
  destruct (interestLoop_monotone_le (y * 12) (y' * 12) (a / 100 / 12) (M + e / 12) P 0
              ltac:(lra) ltac:(lia)) as (i & i' & E & E' & Hi).
  exists i, i'. repeat split; try assumption; try lra.
  intros ->. replace (0 / 100 / 12) with 0 in E' by lra.
  rewrite interestLoop_zero_rate in E'. injection E' as <-. reflexivity.
Qed.

Lemma interest_paid_monotone_witness :
  exists i i',
    calculateInterestPaid (Fin 400000) (Fin (55 / 10)) (Fin 2500) (Fin 6000) 3 = Fin i /\
    calculateInterestPaid (Fin 400000) (Fin (55 / 10)) (Fin 2500) (Fin 6000) 7 = Fin i' /\
    0 <= i <= i' /\
    (55 / 10 = 0 -> i' = 0).
Proof.
  apply (interest_paid_monotone 400000 (55 / 10) 2500 6000 3 7); [lra | lia].
Defined.





(** * Further properties of [calculateProjections] *)

(** The running totals in the [t]-th snapshot. *)
Lemma snapshots_nth_totals (inputs : InvestmentInputs) (n y : nat) (sv cr co : num)
  (t : nat) (pr : YearlyProjection) :
  nth_error (snapshots inputs n y sv cr co) t = Some pr ->
  rentPaid pr = Nat.iter (S t) (fun c => (c + annualRent inputs)%num) cr /\
  ownersCostsPaid pr = Nat.iter (S t) (fun c => (c + ownersCorp inputs)%num) co.
Proof.
  revert y sv cr co t. induction n as [|n IH]; intros y sv cr co t H.
  - destruct t; discriminate.
  - destruct t as [|t]; cbn [snapshots nth_error] in H.
    + injection H as <-. split; reflexivity.
    + destruct (IH _ _ _ _ _ H) as [H1 H2]. split.
      * rewrite H1. symmetry.
        exact (Nat.iter_succ_r (S t) num (fun c => (c + annualRent inputs)%num) cr).
      * rewrite H2. symmetry.
        exact (Nat.iter_succ_r (S t) num (fun c => (c + ownersCorp inputs)%num) co).
Qed.

Lemma iter_add_fin (c x : R) (n : nat) :
  Nat.iter n (fun a => (a + Fin x)%num) (Fin c) = Fin (c + INR n * x).
Proof.
  induction n as [|n IH].
  - simpl. f_equal. lra.
  - rewrite S_INR. simpl. rewrite IH. cbn [nadd]. f_equal. lra.
Qed.

(** X7.  In every returned sequence rentPaid and ownersCostsPaid are the
    yearly amounts times the year of the snapshot: rentPaid = year *
    (weeklyRent * 52) and ownersCostsPaid = year * ownersCorp. *)
Theorem cumulative_costs (inputs : InvestmentInputs) (l : list YearlyProjection)
  (t : nat) (pr : YearlyProjection) (w oc : R) :
  calculateProjections inputs = Some l -> nth_error l t = Some pr ->
  weeklyRent inputs = Fin w -> ownersCorp inputs = Fin oc ->
  rentPaid pr = Fin (INR (year pr) * (w * 52)) /\
  ownersCostsPaid pr = Fin (INR (year pr) * oc).
Proof.
  intros Hl Ht Hw Hoc.
  destruct (calculateProjections_snapshots inputs l Hl) as (n & ->).
  pose proof (snapshots_year _ _ _ _ _ _ _ _ Ht) as Hy.
  destruct (snapshots_nth_totals _ _ _ _ _ _ _ _ Ht) as [H1 H2].
  rewrite H1, H2, Hy. unfold annualRent. rewrite Hw, Hoc. cbn [nmul].
  rewrite !iter_add_fin. split; f_equal; cbn [Nat.add]; lra.
Qed.

(** The theorem at the first snapshot of scenario C. *)
Lemma cumulative_costs_witness :
  exists l pr,
    calculateProjections scenarioC = Some l /\ nth_error l 0 = Some pr /\
    rentPaid pr = Fin (INR (year pr) * (500 * 52)) /\
    ownersCostsPaid pr = Fin (INR (year pr) * 5000).
Proof.
  destruct (valid_projections _ (valid_loan_fields_ok _ scenarioC_valid)) as (p & B & HS & Hl).
  cbn [snapshots] in Hl. do 2 eexists. split; [exact Hl|]. split; [reflexivity|].
  exact (cumulative_costs scenarioC _ 0 _ 500 5000 Hl eq_refl eq_refl eq_refl).
Defined.



(** X9.  With a house cost and a growth rate that are not negative, the
    propertyValue of the returned snapshots is at least the house cost and
    never falls from one snapshot to a later one. *)
Theorem property_value_monotone (inputs : InvestmentInputs) (l : list YearlyProjection)
  (h g : R) (t t' : nat) (q pr : YearlyProjection) :
  calculateProjections inputs = Some l ->
  houseCost inputs = Fin h -> houseGrowthRate inputs = Fin g -> 0 <= h -> 0 <= g ->
  (t <= t')%nat -> nth_error l t = Some q -> nth_error l t' = Some pr ->
  exists v v', propertyValue q = Fin v /\ propertyValue pr = Fin v' /\ h <= v <= v'.
Proof.
  intros Hl Hh Hg Hh0 Hg0 Htt Hq Hpr.
  destruct (calculateProjections_nth inputs l t q Hl Hq) as (cr & co & ->).
  destruct (calculateProjections_nth inputs l t' pr Hl Hpr) as (cr' & co' & ->).
  unfold snapshot. cbn [propertyValue]. rewrite Hh, Hg.
  rewrite !ndiv_fin by lra. cbn [nadd]. rewrite !npow_fin. cbn [nmul].
  do 2 eexists. split; [reflexivity|]. split; [reflexivity|].
  assert (1 <= (1 + g / 100) ^ S t) as H1 by (apply pow_R1_Rle; lra).
  assert ((1 + g / 100) ^ S t <= (1 + g / 100) ^ S t') as H2
    by (apply Rle_pow; [lra | lia]).
  split; nra.
Qed.

Lemma iter_stockStep_fin (inputs : InvestmentInputs) (v0 s y w : R) (n : nat) :
  stockAnnualReturn inputs = Fin s -> yearlyInvestment inputs = Fin y ->
  weeklyRent inputs = Fin w -> s <> 0 ->
  Nat.iter n (stockStep inputs) (Fin v0)
  = Fin (v0 * (1 + s / 100) ^ n
         + (y - 52 * w) * (((1 + s / 100) ^ n - 1) / (s / 100))).
Proof.
  intros Hs Hy Hw Hs0. induction n as [|n IH].
  - simpl. f_equal. field. assumption.
  - change (Nat.iter (S n) (stockStep inputs) (Fin v0))
      with (stockStep inputs (Nat.iter n (stockStep inputs) (Fin v0))).
    rewrite IH, (stockStep_fin inputs _ s y w Hs Hy Hw).
    f_equal. cbn [pow]. field. assumption.
Qed.

(** X10.  The stock path has a closed form: with a stock return s that is
    not 0, the stockValue of the snapshot of year t is
    initialNetWorth * g^t + c * (g^t - 1) / (s/100), where g = 1 + s/100 and
    c = yearlyInvestment - 52 * weeklyRent. *)
Theorem stock_value_closed_form (inputs : InvestmentInputs) (l : list YearlyProjection)
  (t : nat) (pr : YearlyProjection) (v0 s y w : R) :
  calculateProjections inputs = Some l -> nth_error l t = Some pr ->
  initialNetWorth inputs = Fin v0 -> stockAnnualReturn inputs = Fin s ->
  yearlyInvestment inputs = Fin y -> weeklyRent inputs = Fin w -> s <> 0 ->
  stockValue pr
  = Fin (v0 * (1 + s / 100) ^ year pr
         + (y - 52 * w) * (((1 + s / 100) ^ year pr - 1) / (s / 100))).
Proof.
  intros Hl Ht Hv Hs Hy Hw Hs0.
  destruct (calculateProjections_nth inputs l t pr Hl Ht) as (cr & co & ->).
  unfold snapshot. cbn [stockValue year]. rewrite Hv.
  apply iter_stockStep_fin; assumption.
Qed.

Lemma stock_value_closed_form_witness :
  exists l pr,
    calculateProjections scenarioC = Some l /\ nth_error l 0 = Some pr /\
    stockValue pr
    = Fin (600000 * (1 + 98 / 10 / 100) ^ year pr
           + (35000 - 52 * 500) * (((1 + 98 / 10 / 100) ^ year pr - 1) / (98 / 10 / 100))).
Proof.
  destruct (valid_projections _ (valid_loan_fields_ok _ scenarioC_valid)) as (p & B & HS & Hl).
  cbn [snapshots] in Hl. do 2 eexists. split; [exact Hl|]. split; [reflexivity|].
  apply (stock_value_closed_form scenarioC _ 0 _ 600000 (98 / 10) 35000 500 Hl);
    try reflexivity. lra.
Defined.

(** X11.  For every valid ScenarioParameters payoffTime is finite and lies
    between 0 and the 30-year term: extra payments never lengthen the loan.
    It is positive when there is a loan and 0 when there is none. *)
Theorem payoff_time_range (inputs : InvestmentInputs) :
  valid inputs ->
  exists p,
    payoffTime inputs = Fin p /\ 0 <= p <= 30 /\
    ((loanAmount inputs >? 0)%num = true -> 0 < p) /\
    ((loanAmount inputs >? 0)%num = false -> p = 0).
Proof.
  intros Hv. pose proof (valid_loan_fields_ok inputs Hv) as Hok.
  destruct (loanAmount inputs >? 0)%num eqn:Hloan.
  - destruct (schedule_with_loan inputs Hok Hloan) as (p & B & HS & Hp).
    exists p. split; [apply (sched_payoff _ _ _ HS)|].
    split; [apply (sched_range _ _ _ HS)|]. split; intros; [assumption | discriminate].
  - pose proof (schedule_no_loan inputs Hok Hloan) as HS.
    exists 0. split; [apply (sched_payoff _ _ _ HS)|].
    split; [lra|]. split; intros; [discriminate | reflexivity].
Qed.

Lemma payoff_time_range_witness :
  valid scenarioA /\
  exists p,
    payoffTime scenarioA = Fin p /\ 0 <= p <= 30 /\
    ((loanAmount scenarioA >? 0)%num = true -> 0 < p) /\
    ((loanAmount scenarioA >? 0)%num = false -> p = 0).
Proof.
  split; [exact scenarioA_valid | exact (payoff_time_range scenarioA scenarioA_valid)].
Defined.

(** X12.  Without a loan the property path pays no interest: for every valid
    ScenarioParameters with houseCost <= initialNetWorth, every snapshot has
    totalInterestPaid = 0 and propertyTotalCost = ownersCostsPaid. *)
Theorem no_loan_no_interest (inputs : InvestmentInputs) (l : list YearlyProjection)
  (pr : YearlyProjection) :
  valid inputs -> (houseCost inputs <=? initialNetWorth inputs)%num = true ->
  calculateProjections inputs = Some l -> In pr l ->
  totalInterestPaid pr = Fin 0 /\ propertyTotalCost pr = ownersCostsPaid pr.
Proof.
  intros Hv Hle Hl Hin. pose proof (valid_loan_fields_ok inputs Hv) as Hok.
  pose proof (no_loan_of_cost_le inputs Hle) as Hnl.
  pose proof (schedule_no_loan inputs Hok Hnl) as HS.
  destruct (sched_finite _ _ _ HS) as (HL & HM & He).
  destruct (is_finite_fin _ HL) as (L & HLe).
  destruct (is_finite_fin _ HM) as (M & HMe).
  destruct (is_finite_fin _ He) as (e & Hee).
  assert (L <= 0) as HL0.
  { rewrite HLe in Hnl. cbn [ngt nlt] in Hnl.
    destruct (Rle_lt_dec L 0) as [H | H]; [assumption|].
    rewrite Rltb_true in Hnl by assumption. discriminate. }
  destruct Hv as (_ & _ & _ & _ & _ & H6 & _ & H8).
  destruct (nonneg_fin _ H6) as (a & Ha & _).
  destruct (nonneg_fin _ H8) as (oc & Hoc & _).
  apply In_nth_error in Hin. destruct Hin as [t Ht].
  destruct (calculateProjections_snapshots inputs l Hl) as (n & ->).
  destruct (snapshots_nth_totals _ _ _ _ _ _ _ _ Ht) as [_ Hco].
  destruct (snapshots_nth inputs _ _ _ _ _ _ _ Ht) as (sv' & cr' & co' & Epr & _).
  assert (totalInterestPaid pr = Fin 0) as Hi.
  { rewrite Epr. unfold snapshot. cbn [totalInterestPaid].
    rewrite HLe, HMe, Hee, Ha, calculateInterestPaid_loop.
    apply interestLoop_done. assumption. }
  split; [exact Hi|].
  rewrite Hoc, iter_add_fin in Hco.
  rewrite Epr in Hi, Hco |- *. unfold snapshot in Hi, Hco |- *.
  cbn [totalInterestPaid ownersCostsPaid propertyTotalCost] in Hi, Hco |- *.
  rewrite Hi, Hco. cbn [nadd]. f_equal. lra.
Qed.

Lemma no_loan_no_interest_witness :
  exists l pr,
    calculateProjections scenarioC = Some l /\ In pr l /\
    totalInterestPaid pr = Fin 0 /\ propertyTotalCost pr = ownersCostsPaid pr.
Proof.
  destruct (valid_projections _ (valid_loan_fields_ok _ scenarioC_valid)) as (p & B & HS & Hl).
  cbn [snapshots] in Hl. do 2 eexists. split; [exact Hl|]. split; [left; reflexivity|].
  apply (no_loan_no_interest scenarioC _ _ scenarioC_valid scenarioC_no_loan Hl).
  left. reflexivity.
Defined.

(** * The comparison table on the engine's output *)

Lemma findIndex_snapshots_aux (l : list YearlyProjection) (y0 t : nat) (pr : YearlyProjection) :
  (forall k p, nth_error l k = Some p -> year p = (y0 + k)%nat) ->
  nth_error l t = Some pr ->
  findIndex (fun p => Nat.eqb (year p) (year pr)) l = Z.of_nat t.
Proof.
  revert y0 t. induction l as [|x l IH]; intros y0 t Hyears Ht.
  - destruct t; discriminate.
  - cbn [findIndex]. destruct t as [|t].
    + injection Ht as ->. rewrite Nat.eqb_refl. reflexivity.
    + cbn [nth_error] in Ht.
      pose proof (Hyears 0%nat x eq_refl) as Hx.
      pose proof (Hyears (S t) pr Ht) as Hpr.
      assert (Nat.eqb (year x) (year pr) = false) as Hne by (apply Nat.eqb_neq; lia).
      rewrite Hne.
      rewrite (IH (S y0) t); [|intros k p Hk; rewrite (Hyears (S k) p Hk); lia | exact Ht].
      destruct (Z.of_nat t <? 0)%Z eqn:E; [apply Z.ltb_lt in E; lia | lia].
Qed.

(** In the engine's output every row finds itself. *)
Lemma findIndex_projections (inputs : InvestmentInputs) (l : list YearlyProjection)
  (t : nat) (pr : YearlyProjection) :
  calculateProjections inputs = Some l -> nth_error l t = Some pr ->
  findIndex (fun p => Nat.eqb (year p) (year pr)) l = Z.of_nat t.
Proof.
  intros Hl Ht. apply (findIndex_snapshots_aux l 1 t pr); [|exact Ht].
  intros k p Hk. destruct (calculateProjections_nth inputs l k p Hl Hk) as (cr & co & ->).
  reflexivity.
Qed.

Lemma iter_stockStep_finite (inputs : InvestmentInputs) (v0 s y w : R) (n : nat) :
  stockAnnualReturn inputs = Fin s -> yearlyInvestment inputs = Fin y ->
  weeklyRent inputs = Fin w ->
  exists v, Nat.iter n (stockStep inputs) (Fin v0) = Fin v.
Proof.
  intros Hs Hy Hw. induction n as [|n [v IH]].
  - exists v0. reflexivity.
  - change (Nat.iter (S n) (stockStep inputs) (Fin v0))
      with (stockStep inputs (Nat.iter n (stockStep inputs) (Fin v0))).
    rewrite IH, (stockStep_fin inputs _ s y w Hs Hy Hw). eauto.
Qed.

(** The stock value before the row's year. *)
Lemma row_prevStockValue (inputs : InvestmentInputs) (l : list YearlyProjection)
  (t : nat) (pr : YearlyProjection) :
  calculateProjections inputs = Some l -> nth_error l t = Some pr ->
  ComparisonTableRow.prevStockValue (ComparisonTableRow.row l inputs pr)
  = Nat.iter t (stockStep inputs) (initialNetWorth inputs).
Proof.
  intros Hl Ht. unfold ComparisonTableRow.row. cbn [ComparisonTableRow.prevStockValue].
  rewrite (findIndex_projections inputs l t pr Hl Ht).
  destruct t as [|t].
  - reflexivity.
  - assert ((Z.of_nat (S t) >? 0)%Z = true) as Hpos by (apply Z.gtb_lt; lia).
    rewrite Hpos.
    replace (Z.to_nat (Z.of_nat (S t) - 1)) with t by lia.
    destruct (nth_error l t) as [q|] eqn:Hq.
    + destruct (calculateProjections_nth inputs l t q Hl Hq) as (cr & co & ->).
      reflexivity.
    + apply nth_error_None in Hq.
      assert (nth_error l (S t) <> None) as Hn by (rewrite Ht; discriminate).
      apply nth_error_Some in Hn. lia.
Qed.

(** X13.  The stock columns of a table row add up: on the engine's output,
    the portfolio at the start of the year plus its growth plus the yearly
    investment less the annual rent is the stockNetWorth shown for the year. *)
Theorem table_stock_columns_add_up (inputs : InvestmentInputs) (l : list YearlyProjection)
  (t : nat) (pr : YearlyProjection) (v0 s y w : R) :
  calculateProjections inputs = Some l -> nth_error l t = Some pr ->
  initialNetWorth inputs = Fin v0 -> stockAnnualReturn inputs = Fin s ->
  yearlyInvestment inputs = Fin y -> weeklyRent inputs = Fin w ->
  exists prev growth,
    ComparisonTableRow.prevStockValue (ComparisonTableRow.row l inputs pr) = Fin prev /\
    ComparisonTableRow.stockGrowth (ComparisonTableRow.row l inputs pr) = Fin growth /\
    ComparisonTableRow.annualRent (ComparisonTableRow.row l inputs pr) = Fin (w * 52) /\
    stockNetWorth pr = Fin (prev + growth + y - w * 52).
Proof.
  intros Hl Ht Hv Hs Hy Hw.
  pose proof (row_prevStockValue inputs l t pr Hl Ht) as Hprev.
  rewrite Hv in Hprev.
  destruct (iter_stockStep_finite inputs v0 s y w t Hs Hy Hw) as (prev & Eprev).
  rewrite Eprev in Hprev.
  exists prev, (prev * (s / 100)). split; [exact Hprev|]. split.
  - change (ComparisonTableRow.stockGrowth (ComparisonTableRow.row l inputs pr))
      with (ComparisonTableRow.prevStockValue (ComparisonTableRow.row l inputs pr)
            * (stockAnnualReturn inputs / 100))%num.
    rewrite Hprev, Hs, ndiv_fin by lra. reflexivity.
  - split.
    + unfold ComparisonTableRow.row. cbn [ComparisonTableRow.annualRent].
      rewrite Hw. reflexivity.
    + destruct (calculateProjections_nth inputs l t pr Hl Ht) as (cr & co & ->).
      unfold snapshot. cbn [stockNetWorth].
      change (Nat.iter (S t) (stockStep inputs) (initialNetWorth inputs))
        with (stockStep inputs (Nat.iter t (stockStep inputs) (initialNetWorth inputs))).
      rewrite Hv, Eprev, (stockStep_fin inputs _ s y w Hs Hy Hw). f_equal. lra.
Qed.

(** X14.  The house columns of a table row add up: on the engine's output,
    the house value at the start of the year plus its growth is the
    propertyValue of the year's snapshot. *)
Theorem table_house_columns_add_up (inputs : InvestmentInputs) (l : list YearlyProjection)
  (t : nat) (pr : YearlyProjection) (h g : R) :
  calculateProjections inputs = Some l -> nth_error l t = Some pr ->
  houseCost inputs = Fin h -> houseGrowthRate inputs = Fin g ->
  exists b growth,
    ComparisonTableRow.beginningHouseValue (ComparisonTableRow.row l inputs pr) = Fin b /\
    ComparisonTableRow.houseGrowth (ComparisonTableRow.row l inputs pr) = Fin growth /\
    propertyValue pr = Fin (b + growth).
Proof.
  intros Hl Ht Hh Hg.
  assert (exists b,
             ComparisonTableRow.beginningHouseValue (ComparisonTableRow.row l inputs pr) = Fin b /\
             propertyValue pr = Fin (b * (1 + g / 100))) as (b & Hb & Hpv).
  { unfold ComparisonTableRow.row. cbn [ComparisonTableRow.beginningHouseValue].
    rewrite (findIndex_projections inputs l t pr Hl Ht).
    destruct (calculateProjections_nth inputs l t pr Hl Ht) as (cr & co & ->).
    unfold snapshot. cbn [propertyValue year].
    rewrite Hh, Hg, ndiv_fin by lra. cbn [nadd]. rewrite !npow_fin. cbn [nmul].
    destruct t as [|t].
    - exists h. split; [reflexivity|]. f_equal. cbn [pow]. lra.
    - assert ((Z.of_nat (S t) >? 0)%Z = true) as Hpos by (apply Z.gtb_lt; lia).
      rewrite Hpos. replace (S (S t) - 1)%nat with (S t) by lia.
      exists (h * (1 + g / 100) ^ S t). split; [reflexivity|].
      f_equal. cbn [pow]. lra. }
  exists b, (b * (g / 100)). split; [exact Hb|]. split.
  - change (ComparisonTableRow.houseGrowth (ComparisonTableRow.row l inputs pr))
      with (ComparisonTableRow.beginningHouseValue (ComparisonTableRow.row l inputs pr)
            * (houseGrowthRate inputs / 100))%num.
    rewrite Hb, Hg, ndiv_fin by lra. reflexivity.
  - rewrite Hpv. f_equal. lra.
Qed.



(** The output for scenario B: the snapshots of the years 1 to 31. *)
Lemma scenarioB_projections :
  calculateProjections scenarioB
  = Some (snapshots scenarioB 31 1 (initialNetWorth scenarioB) 0 0).
Proof.
  pose proof (valid_loan_fields_ok _ scenarioB_valid) as Hok.
  destruct (schedule_with_loan scenarioB Hok scenarioB_loan) as (p & B & HS & Hp).
  destruct (sched_finite _ _ _ HS) as (_ & HM & _).
  destruct (is_finite_fin _ HM) as (M & HMe).
  assert (extraAnnualPayment scenarioB = Fin 0) as He.
  { rewrite (extraAnnualPayment_fin scenarioB 20000 M 5000 eq_refl HMe eq_refl). f_equal.
    apply Rmax_0_nonpos.
    pose proof scenarioB_unaffordable as Hun.
    unfold annualMortgageCosts in Hun. rewrite HMe in Hun.
    cbn [yearlyInvestment ownersCorp scenarioB nmul nadd nlt] in Hun.
    apply Rltb_iff in Hun. lra. }
  assert (p = 30) as ->.
  { pose proof (sched_payoff _ _ _ HS) as E. unfold payoffTime in E.
    rewrite scenarioB_loan, He, calculatePayoffTime_no_extra in E by lra.
    injection E as E. lra. }
  rewrite (schedule_projections scenarioB 30 B HS), (floorZ_IZR 30). reflexivity.
Qed.


(** * The URL state *)

Lemma inputKeyMap_urlParamMap (key : InputKey) :
  inputKeyMap (urlParamMap key) = Some key.
Proof. destruct key; reflexivity. Qed.

Lemma inputKeyMap_some (param : string) (key : InputKey) :
  inputKeyMap param = Some key -> urlParamMap key = param.
Proof.
  unfold inputKeyMap. cbn [fold_left inputKeys].
  repeat match goal with
         | |- context [String.eqb ?a param] =>
             let E := fresh "E" in destruct (String.eqb a param) eqn:E
         end;
    intros H; try discriminate; injection H as <-;
    match goal with
    | E : String.eqb _ param = true |- _ => apply String.eqb_eq in E; exact E
    end.
Qed.

Lemma InputKey_eqb_eq (a b : InputKey) : InputKey_eqb a b = true <-> a = b.
Proof. destruct a, b; cbn; split; intros H; try reflexivity; discriminate. Qed.

Lemma InputKey_eq_dec (a b : InputKey) : {a = b} + {a <> b}.
Proof. decide equality. Defined.

Lemma urlParamMap_injective (a b : InputKey) : urlParamMap a = urlParamMap b -> a = b.
Proof.
  intros H. pose proof (inputKeyMap_urlParamMap a) as Ha.
  rewrite H, inputKeyMap_urlParamMap in Ha. injection Ha as ->. reflexivity.
Qed.

Lemma getField_setField_same (key : InputKey) (v : num) (inputs : InvestmentInputs) :
  getField key (setField key v inputs) = v.
Proof. destruct key; reflexivity. Qed.

Lemma getField_setField_other (key key' : InputKey) (v : num) (inputs : InvestmentInputs) :
  key' <> key -> getField key' (setField key v inputs) = getField key' inputs.
Proof. intros H. destruct key, key'; try reflexivity; contradiction. Qed.

(** Two parameter sets with the same eight fields are equal. *)
Lemma inputs_ext (a b : InvestmentInputs) :
  (forall key, getField key a = getField key b) -> a = b.
Proof.
  intros H. destruct a, b.
  pose proof (H KInitialNetWorth). pose proof (H KYearlyInvestment).
  pose proof (H KWeeklyRent). pose proof (H KStockAnnualReturn).
  pose proof (H KHouseCost). pose proof (H KMortgageRate).
  pose proof (H KHouseGrowthRate). pose proof (H KOwnersCorp).
  cbn in *. congruence.
Qed.

Section UrlStateProperties.

Variable parseFloat : string -> num.
Variable toString : num -> string.

Lemma getField_readEntry (key : InputKey) (inputs : InvestmentInputs)
  (entry : string * string) :
  getField key (readEntry parseFloat inputs entry)
  = if (String.eqb (fst entry) (urlParamMap key)
        && negb (String.eqb (snd entry) "")
        && negb (isNaN (parseFloat (snd entry))))%bool
    then parseFloat (snd entry) else getField key inputs.
Proof.
  destruct entry as [param value]. cbn [readEntry fst snd].
  destruct (inputKeyMap param) as [k|] eqn:Hk.
  - apply inputKeyMap_some in Hk. subst param.
    destruct (InputKey_eq_dec k key) as [-> | Hne].
    + rewrite String.eqb_refl. cbn [andb].
      destruct (negb (String.eqb value "")); cbn [andb]; [|reflexivity].
      destruct (negb (isNaN (parseFloat value))); [|reflexivity].
      apply getField_setField_same.
    + assert (String.eqb (urlParamMap k) (urlParamMap key) = false) as E.
      { apply String.eqb_neq. intros H. apply Hne. apply urlParamMap_injective. exact H. }
      rewrite E. cbn [andb].
      destruct (negb (String.eqb value "")); [|reflexivity].
      destruct (negb (isNaN (parseFloat value))); [|reflexivity].
      apply getField_setField_other. auto.
  - assert (String.eqb param (urlParamMap key) = false) as E.
    { apply String.eqb_neq. intros ->. rewrite inputKeyMap_urlParamMap in Hk. discriminate. }
    rewrite E. reflexivity.
Qed.

Lemma getField_read (key : InputKey) (sp : SearchParams) (inputs : InvestmentInputs) :
  getField key (fold_left (readEntry parseFloat) sp inputs)
  = fieldAfter parseFloat key (getField key inputs) sp.
Proof.
  revert inputs. induction sp as [|entry sp IH]; intros inputs; [reflexivity|].
  cbn [fold_left]. rewrite IH, getField_readEntry. reflexivity.
Qed.

Lemma fieldAfter_not_NaN (key : InputKey) (acc : num) (sp : SearchParams) :
  isNaN acc = false -> isNaN (fieldAfter parseFloat key acc sp) = false.
Proof.
  revert acc. induction sp as [|entry sp IH]; intros acc Hacc; [exact Hacc|].
  unfold fieldAfter. cbn [fold_left]. apply IH.
  destruct (String.eqb (fst entry) (urlParamMap key)); cbn [andb]; [|exact Hacc].
  destruct (negb (String.eqb (snd entry) "")); cbn [andb]; [|exact Hacc].
  destruct (isNaN (parseFloat (snd entry))) eqn:E; cbn [negb]; [exact Hacc | exact E].
Qed.

Lemma fieldAfter_absent (key : InputKey) (acc : num) (sp : SearchParams) :
  (forall entry, In entry sp -> fst entry <> urlParamMap key) ->
  fieldAfter parseFloat key acc sp = acc.
Proof.
  revert acc. induction sp as [|entry sp IH]; intros acc H; [reflexivity|].
  unfold fieldAfter. cbn [fold_left].
  assert (String.eqb (fst entry) (urlParamMap key) = false) as E.
  { apply String.eqb_neq. apply H. left. reflexivity. }
  rewrite E. cbn [andb]. apply IH. intros e He. apply H. right. exact He.
Qed.

Lemma sp_delete_absent (name : string) (sp : SearchParams) (entry : string * string) :
  In entry (sp_delete name sp) -> fst entry <> name.
Proof.
  unfold sp_delete. intros H. apply filter_In in H. destruct H as [_ H].
  apply negb_true_iff in H. apply String.eqb_neq. exact H.
Qed.

Lemma fieldAfter_sp_delete_other (key key' : InputKey) (acc : num) (sp : SearchParams) :
  key' <> key ->
  fieldAfter parseFloat key' acc (sp_delete (urlParamMap key) sp)
  = fieldAfter parseFloat key' acc sp.
Proof.
  intros Hne. revert acc. induction sp as [|entry sp IH]; intros acc; [reflexivity|].
  cbn [sp_delete filter].
  destruct (String.eqb (fst entry) (urlParamMap key)) eqn:E; cbn [negb].
  - fold (sp_delete (urlParamMap key) sp). rewrite IH.
    unfold fieldAfter at 2. cbn [fold_left].
    apply String.eqb_eq in E.
    assert (String.eqb (fst entry) (urlParamMap key') = false) as E'.
    { apply String.eqb_neq. rewrite E. intros H. apply Hne. symmetry.
      apply urlParamMap_injective. exact H. }
    rewrite E'. reflexivity.
  - fold (sp_delete (urlParamMap key) sp).
    unfold fieldAfter. cbn [fold_left]. apply IH.
Qed.

Lemma fieldAfter_sp_set_other (key key' : InputKey) (acc : num) (s : string)
  (sp : SearchParams) :
  key' <> key ->
  fieldAfter parseFloat key' acc (sp_set (urlParamMap key) s sp)
  = fieldAfter parseFloat key' acc sp.
Proof.
  intros Hne.
  assert (String.eqb (urlParamMap key) (urlParamMap key') = false) as Hkk.
  { apply String.eqb_neq. intros H. apply Hne. symmetry. apply urlParamMap_injective. exact H. }
  revert acc. induction sp as [|entry sp IH]; intros acc.
  - unfold fieldAfter. cbn [sp_set fold_left fst]. rewrite Hkk. reflexivity.
  - cbn [sp_set]. destruct (String.eqb (fst entry) (urlParamMap key)) eqn:E.
    + apply String.eqb_eq in E.
      unfold fieldAfter at 1 2. cbn [fold_left fst].
      rewrite E, Hkk. cbn [andb].
      apply (fieldAfter_sp_delete_other key key' acc sp Hne).
    + unfold fieldAfter. cbn [fold_left]. apply IH.
Qed.

Lemma fieldAfter_sp_set_same (key : InputKey) (acc : num) (s : string) (sp : SearchParams) :
  s <> ""%string -> isNaN (parseFloat s) = false ->
  fieldAfter parseFloat key acc (sp_set (urlParamMap key) s sp) = parseFloat s.
Proof.
  intros Hs Hnan.
  assert (forall a, fieldAfter parseFloat key a [(urlParamMap key, s)] = parseFloat s) as Hone.
  { intros a. unfold fieldAfter. cbn [fold_left fst snd].
    rewrite String.eqb_refl, Hnan. apply String.eqb_neq in Hs. rewrite Hs. reflexivity. }
  revert acc. induction sp as [|entry sp IH]; intros acc.
  - apply Hone.
  - cbn [sp_set]. destruct (String.eqb (fst entry) (urlParamMap key)) eqn:E.
    + change ((urlParamMap key, s) :: sp_delete (urlParamMap key) sp)
        with ([(urlParamMap key, s)] ++ sp_delete (urlParamMap key) sp).
      unfold fieldAfter. rewrite fold_left_app.
      fold (fieldAfter parseFloat key acc [(urlParamMap key, s)]). rewrite Hone.
      apply (fieldAfter_absent key). intros e He. apply (sp_delete_absent _ _ _ He).
    + unfold fieldAfter. cbn [fold_left]. apply IH.
Qed.

End UrlStateProperties.

Lemma neq_true_eq (a b : num) : (a === b)%num = true -> a = b.
Proof.
  destruct a, b; cbn [neq]; intros H; try discriminate; try reflexivity.
  apply Reqb_iff in H. subst. reflexivity.
Qed.

Section UrlStateTheorems.

Variable parseFloat : string -> num.
Variable toString : num -> string.

(** Reading the URL that [updateURL] installs. *)
Lemma updateURL_read (key : InputKey) (value : num) (sp : SearchParams) :
  isNaN value = false ->
  toString value <> ""%string ->
  parseFloat (toString value) = value ->
  exists sp',
    updateURL toString key value (Some sp) = Some sp' /\
    getInitialInputsFromURL parseFloat (Some sp')
    = setField key value (getInitialInputsFromURL parseFloat (Some sp)).
Proof.
  intros Hnan Hs Hrt. cbn [updateURL].
  destruct (value === getField key defaultInputs)%num eqn:E; cbn [negb].
  - apply neq_true_eq in E.
    eexists. split; [reflexivity|]. apply inputs_ext. intros key'.
    cbn [getInitialInputsFromURL]. rewrite getField_read.
    destruct (InputKey_eq_dec key' key) as [-> | Hne].
    + rewrite getField_setField_same.
      rewrite (fieldAfter_absent parseFloat key); [symmetry; exact E|].
      intros e He. apply (sp_delete_absent _ _ _ He).
    + rewrite getField_setField_other by assumption.
      rewrite getField_read. apply fieldAfter_sp_delete_other. assumption.
  - eexists. split; [reflexivity|]. apply inputs_ext. intros key'.
    cbn [getInitialInputsFromURL]. rewrite getField_read.
    destruct (InputKey_eq_dec key' key) as [-> | Hne].
    + rewrite getField_setField_same.
      rewrite fieldAfter_sp_set_same; [exact Hrt | exact Hs | rewrite Hrt; exact Hnan].
    + rewrite getField_setField_other by assumption.
      rewrite getField_read. apply fieldAfter_sp_set_other. assumption.
Qed.

(** X16.  Writing a field to the URL and reading the URL back gives the
    field its value and leaves the other fields as the URL had them, for every
    value that is not NaN and that the platform's toString and parseFloat
    reproduce: a value different from the default is stored under the
    field's parameter name, the default value removes the parameter. *)
Theorem url_round_trip (key : InputKey) (value : num) (sp : SearchParams) :
  isNaN value = false ->
  toString value <> ""%string ->
  parseFloat (toString value) = value ->
  exists sp',
    updateURL toString key value (Some sp) = Some sp' /\
    getInitialInputsFromURL parseFloat (Some sp')
    = setField key value (getInitialInputsFromURL parseFloat (Some sp)).
Proof. exact (updateURL_read key value sp). Qed.

(** X17.  No field read from the URL is NaN, whatever the URL holds. *)
Theorem url_inputs_never_NaN (window : option SearchParams) (key : InputKey) :
  isNaN (getField key (getInitialInputsFromURL parseFloat window)) = false.
Proof.
  destruct window as [sp|]; cbn [getInitialInputsFromURL].
  - rewrite getField_read. apply fieldAfter_not_NaN. destruct key; reflexivity.
  - destruct key; reflexivity.
Qed.

(** X18.  A field whose parameter name does not occur in the URL keeps its
    default value. *)
Theorem url_missing_parameter (key : InputKey) (sp : SearchParams) :
  (forall entry, In entry sp -> fst entry <> urlParamMap key) ->
  getField key (getInitialInputsFromURL parseFloat (Some sp))
  = getField key defaultInputs.
Proof.
  intros H. cbn [getInitialInputsFromURL]. rewrite getField_read.
  apply fieldAfter_absent. exact H.
Qed.

(** X19.  A pair of the URL that names no field, has an empty value or a
    value that parses to NaN is ignored wherever it stands: the inputs read
    are those of the URL without the pair. *)
Theorem url_invalid_pair_ignored (sp1 sp2 : SearchParams) (param value : string) :
  inputKeyMap param = None \/ value = ""%string \/ isNaN (parseFloat value) = true ->
  getInitialInputsFromURL parseFloat (Some (sp1 ++ (param, value) :: sp2))
  = getInitialInputsFromURL parseFloat (Some (sp1 ++ sp2)).
Proof.
  intros H. cbn [getInitialInputsFromURL]. rewrite !fold_left_app. cbn [fold_left].
  f_equal. cbn [readEntry].
  destruct (inputKeyMap param) as [k|]; [|reflexivity].
  destruct H as [H | [H | H]].
  - discriminate.
  - subst value. reflexivity.
  - rewrite H. cbn [negb]. destruct (negb (String.eqb value "")); reflexivity.
Qed.

End UrlStateTheorems.

(** The theorems for a platform that prints every number as 7 and parses
    every string as 7. *)
Lemma url_round_trip_witness :
  exists sp',
    updateURL (fun _ => "7"%string) KWeeklyRent (Fin 7) (Some [("fees"%string, "12"%string)]) = Some sp' /\
    getInitialInputsFromURL (fun _ => Fin 7) (Some sp')
    = setField KWeeklyRent (Fin 7)
        (getInitialInputsFromURL (fun _ => Fin 7) (Some [("fees"%string, "12"%string)])).
Proof.
  apply (url_round_trip (fun _ => Fin 7) (fun _ => "7"%string) KWeeklyRent (Fin 7));
    [reflexivity | discriminate | reflexivity].
Defined.

Lemma url_missing_parameter_witness :
  getField KWeeklyRent
    (getInitialInputsFromURL (fun _ => Fin 7) (Some [("fees"%string, "12"%string)]))
  = getField KWeeklyRent defaultInputs.
Proof.
  apply (url_missing_parameter (fun _ => Fin 7) KWeeklyRent).
  intros entry [<- | []]. discriminate.
Defined.

Lemma url_invalid_pair_ignored_witness :
  getInitialInputsFromURL (fun _ => Fin 7)
    (Some ([("fees"%string, "12"%string)]
           ++ ("utm_source"%string, "mail"%string) :: [("rent"%string, "400"%string)]))
  = getInitialInputsFromURL (fun _ => Fin 7)
      (Some ([("fees"%string, "12"%string)] ++ [("rent"%string, "400"%string)])).
Proof.
  apply (url_invalid_pair_ignored (fun _ => Fin 7)). left. reflexivity.
Defined.

(** ** Edits, blur and the URL *)

Lemma InputKey_eqb_refl (key : InputKey) : InputKey_eqb key key = true.
Proof. destruct key; reflexivity. Qed.

Lemma InputKey_eqb_neq (a b : InputKey) : a <> b -> InputKey_eqb a b = false.
Proof.
  intros H. destruct (InputKey_eqb a b) eqn:E; [|reflexivity].
  apply InputKey_eqb_eq in E. contradiction.
Qed.

Lemma getField_apply_pending (key : InputKey) (pending : list (InputKey * num))
  (inputs : InvestmentInputs) :
  getField key
    (fold_left (fun i entry => setField (fst entry) (snd entry) i) pending inputs)
  = pendingAfter key (getField key inputs) pending.
Proof.
  revert inputs. induction pending as [|[k v] pending IH]; intros inputs; [reflexivity|].
  unfold pendingAfter. cbn [fold_left fst snd]. rewrite IH. unfold pendingAfter. f_equal.
  destruct (InputKey_eq_dec k key) as [-> | Hne].
  - rewrite InputKey_eqb_refl. apply getField_setField_same.
  - rewrite InputKey_eqb_neq by assumption. apply getField_setField_other. auto.
Qed.

Lemma pendingAfter_absent (key : InputKey) (acc : num) (pending : list (InputKey * num)) :
  ~ In key (map fst pending) -> pendingAfter key acc pending = acc.
Proof.
  revert acc. induction pending as [|[k v] pending IH]; intros acc H; [reflexivity|].
  unfold pendingAfter. cbn [fold_left fst snd].
  rewrite InputKey_eqb_neq by (intros ->; apply H; left; reflexivity).
  apply IH. intros Hin. apply H. right. exact Hin.
Qed.

Lemma pending_set_keys (key : InputKey) (value : num) (pending : list (InputKey * num))
  (k : InputKey) :
  In k (map fst (pending_set key value pending)) <-> k = key \/ In k (map fst pending).
Proof.
  induction pending as [|[k0 v0] pending IH]; cbn [pending_set map fst In].
  - intuition congruence.
  - destruct (InputKey_eqb k0 key) eqn:E; cbn [map fst In].
    + apply InputKey_eqb_eq in E. subst k0. intuition congruence.
    + rewrite IH. intuition congruence.
Qed.

Lemma pending_set_NoDup (key : InputKey) (value : num) (pending : list (InputKey * num)) :
  NoDup (map fst pending) -> NoDup (map fst (pending_set key value pending)).
Proof.
  induction pending as [|[k0 v0] pending IH]; intros H; cbn [pending_set map fst].
  - constructor; [intros [] | constructor].
  - inversion H as [|? ? Hnotin Hnodup]; subst.
    destruct (InputKey_eqb k0 key) eqn:E; cbn [map fst].
    + apply InputKey_eqb_eq in E. subst k0. constructor; assumption.
    + constructor; [|apply IH; assumption].
      rewrite pending_set_keys. intros [-> | Hin]; [|contradiction].
      rewrite InputKey_eqb_refl in E. discriminate.
Qed.

Lemma pendingAfter_pending_set (key k : InputKey) (value acc : num)
  (pending : list (InputKey * num)) :
  NoDup (map fst pending) ->
  pendingAfter k acc (pending_set key value pending)
  = if InputKey_eqb key k then value else pendingAfter k acc pending.
Proof.
  revert acc. induction pending as [|[k0 v0] pending IH]; intros acc H;
    cbn [pending_set fst].
  - unfold pendingAfter. cbn [fold_left fst snd]. reflexivity.
  - inversion H as [|? ? Hnotin Hnodup]; subst.
    destruct (InputKey_eqb k0 key) eqn:E.
    + apply InputKey_eqb_eq in E. subst k0.
      unfold pendingAfter. cbn [fold_left fst snd].
      fold (pendingAfter k (if InputKey_eqb key k then value else acc) pending).
      fold (pendingAfter k (if InputKey_eqb key k then v0 else acc) pending).
      destruct (InputKey_eqb key k) eqn:Ek.
      * apply InputKey_eqb_eq in Ek. subst k.
        apply pendingAfter_absent. assumption.
      * reflexivity.
    + unfold pendingAfter. cbn [fold_left fst snd].
      apply (IH _ Hnodup).
Qed.

Section HookTheorems.

Variable Number : string -> num.
Variable parseFloat : string -> num.
Variable toString : num -> string.

Lemma formInputChange_not_NaN (value : string) (numValue : num) :
  formInputChange Number value = Some numValue -> isNaN numValue = false.
Proof.
  unfold formInputChange. destruct (String.eqb value "") eqn:E; cbn [orb].
  - intros H. injection H as <-. reflexivity.
  - destruct (isNaN (Number value)) eqn:En; cbn [negb]; intros H; [discriminate|].
    injection H as <-. exact En.
Qed.

Lemma pending_set_Forall (P : InputKey * num -> Prop) (key : InputKey) (value : num)
  (pending : list (InputKey * num)) :
  P (key, value) -> Forall P pending -> Forall P (pending_set key value pending).
Proof.
  intros Hv H. induction H as [|entry pending He H IH]; cbn [pending_set].
  - constructor; [exact Hv | constructor].
  - destruct (InputKey_eqb (fst entry) key); constructor; assumption.
Qed.

Lemma Pending_initial (sp : SearchParams) :
  Pending parseFloat toString sp (initialState parseFloat (Some sp)).
Proof.
  unfold Pending, initialState. cbn [st_window st_pending st_inputs map fold_left].
  repeat split; constructor.
Qed.

Lemma Pending_change (sp : SearchParams) (st : AppState) (key : InputKey) (value : num) :
  reproduced parseFloat toString value ->
  Pending parseFloat toString sp st ->
  Pending parseFloat toString sp (handleInputChange key value st).
Proof.
  intros Hv (Hw & Hnd & Hall & Hin). unfold Pending, handleInputChange.
  cbn [st_window st_pending st_inputs].
  split; [exact Hw|]. split; [apply pending_set_NoDup; exact Hnd|].
  split; [apply pending_set_Forall; assumption|].
  apply inputs_ext. intros k.
  rewrite getField_apply_pending, pendingAfter_pending_set by exact Hnd.
  destruct (InputKey_eq_dec key k) as [-> | Hne].
  - rewrite InputKey_eqb_refl. apply getField_setField_same.
  - rewrite InputKey_eqb_neq by assumption.
    rewrite getField_setField_other by auto.
    rewrite Hin. apply getField_apply_pending.
Qed.

Lemma blur_window (pending : list (InputKey * num)) (sp : SearchParams) :
  Forall (fun entry => reproduced parseFloat toString (snd entry)) pending ->
  exists sp',
    fold_left (fun window entry => updateURL toString (fst entry) (snd entry) window)
      pending (Some sp) = Some sp' /\
    getInitialInputsFromURL parseFloat (Some sp')
    = fold_left (fun i entry => setField (fst entry) (snd entry) i) pending
        (getInitialInputsFromURL parseFloat (Some sp)).
Proof.
  intros H. revert sp. induction H as [|[k v] pending (Hn & Hs & Hrt) H IH]; intros sp.
  - exists sp. split; reflexivity.
  - cbn [fold_left fst snd] in *.
    destruct (updateURL_read parseFloat toString k v sp Hn Hs Hrt) as (sp1 & E1 & R1).
    rewrite E1. destruct (IH sp1) as (sp' & E' & R'). exists sp'.
    split; [exact E'|]. rewrite R', R1. reflexivity.
Qed.

(** X20.  Edits and blur keep the URL in step with the form: after any
    sequence of texts typed into fields and a blur, no change is pending and
    reading the URL again (a reload or a navigation back to it) gives exactly
    the inputs shown, provided the platform's toString and parseFloat
    reproduce each number passed on by the form. *)
Theorem typed_edits_then_blur_sync (typed : list (InputKey * string)) (sp : SearchParams) :
  (forall entry numValue,
     In entry typed -> formInputChange Number (snd entry) = Some numValue ->
     toString numValue <> ""%string /\ parseFloat (toString numValue) = numValue) ->
  let st := handleInputBlur toString
              (typeAll Number typed (initialState parseFloat (Some sp))) in
  st_pending st = [] /\
  getInitialInputsFromURL parseFloat (st_window st) = st_inputs st /\
  handlePopState parseFloat st = st.
Proof.
  intros Hrt.
  assert (Pending parseFloat toString sp
            (typeAll Number typed (initialState parseFloat (Some sp)))) as HP.
  { unfold typeAll. generalize (Pending_initial sp).
    generalize (initialState parseFloat (Some sp)) as st0.
    induction typed as [|[k s] typed IH]; intros st0 H0; [exact H0|].
    cbn [fold_left fst snd]. apply IH.
    - intros entry v Hin Hv. apply (Hrt entry v); [right; exact Hin | exact Hv].
    - unfold typeInto. destruct (formInputChange Number s) as [v|] eqn:Ev; [|exact H0].
      apply Pending_change; [|exact H0].
      destruct (Hrt (k, s) v (or_introl eq_refl) Ev) as [H1 H2].
      split; [exact (formInputChange_not_NaN s v Ev) | split; assumption]. }
  destruct HP as (Hw & _ & Hall & Hin).
  destruct (blur_window _ sp Hall) as (sp' & E & R).
  cbv zeta. unfold handleInputBlur, handlePopState. cbn [st_pending st_window st_inputs].
  rewrite Hw, E. split; [reflexivity|]. split.
  - rewrite R, Hin. reflexivity.
  - rewrite R, <- Hin. reflexivity.
Qed.

End HookTheorems.

(** The theorem for a platform that reads and prints every number as 7:
    texts are typed into the rent and into the fees. *)
Lemma typed_edits_then_blur_sync_witness :
  let st := handleInputBlur (fun _ => "7"%string)
              (typeAll (fun _ => Fin 7)
                 [(KWeeklyRent, "450"%string); (KOwnersCorp, "7"%string)]
                 (initialState (fun _ => Fin 7) (Some [("fees"%string, "12"%string)]))) in
  st_pending st = [] /\
  getInitialInputsFromURL (fun _ => Fin 7) (st_window st) = st_inputs st /\
  handlePopState (fun _ => Fin 7) st = st.
Proof.
  apply (typed_edits_then_blur_sync (fun _ => Fin 7) (fun _ => Fin 7) (fun _ => "7"%string)).
  intros entry numValue Hin Hv.
  destruct Hin as [<- | [<- | []]]; cbn in Hv; injection Hv as <-;
    (split; [discriminate | reflexivity]).
Defined.

(** * The theorems at the first two snapshots of scenario B *)

Lemma property_value_monotone_witness :
  exists l q pr v v',
    calculateProjections scenarioB = Some l /\
    nth_error l 0 = Some q /\ nth_error l 1 = Some pr /\
    propertyValue q = Fin v /\ propertyValue pr = Fin v' /\ 500000 <= v <= v'.
Proof.
  pose proof scenarioB_projections as Hl.
  destruct (property_value_monotone scenarioB _ 500000 (35 / 10) 0 1 _ _ Hl eq_refl eq_refl
              ltac:(lra) ltac:(lra) (le_S 0 0 (le_n 0)) eq_refl eq_refl)
    as (v & v' & E & E' & Hv).
  do 3 eexists. exists v, v'. split; [exact Hl|]. split; [reflexivity|].
  split; [reflexivity|]. split; [exact E|]. split; [exact E' | exact Hv].
Defined.

Lemma table_stock_columns_add_up_witness :
  exists l pr prev growth,
    calculateProjections scenarioB = Some l /\ nth_error l 1 = Some pr /\
    ComparisonTableRow.prevStockValue (ComparisonTableRow.row l scenarioB pr) = Fin prev /\
    ComparisonTableRow.stockGrowth (ComparisonTableRow.row l scenarioB pr) = Fin growth /\
    ComparisonTableRow.annualRent (ComparisonTableRow.row l scenarioB pr) = Fin (500 * 52) /\
    stockNetWorth pr = Fin (prev + growth + 20000 - 500 * 52).
Proof.
  pose proof scenarioB_projections as Hl.
  destruct (table_stock_columns_add_up scenarioB _ 1 _ 100000 (98 / 10) 20000 500 Hl
              eq_refl eq_refl eq_refl eq_refl eq_refl) as (prev & growth & H).
  do 2 eexists. exists prev, growth. split; [exact Hl|]. split; [reflexivity | exact H].
Defined.

Lemma table_house_columns_add_up_witness :
  exists l pr b growth,
    calculateProjections scenarioB = Some l /\ nth_error l 1 = Some pr /\
    ComparisonTableRow.beginningHouseValue (ComparisonTableRow.row l scenarioB pr) = Fin b /\
    ComparisonTableRow.houseGrowth (ComparisonTableRow.row l scenarioB pr) = Fin growth /\
    propertyValue pr = Fin (b + growth).
Proof.
  pose proof scenarioB_projections as Hl.
  destruct (table_house_columns_add_up scenarioB _ 1 _ 500000 (35 / 10) Hl
              eq_refl eq_refl eq_refl) as (b & growth & H).
  do 2 eexists. exists b, growth. split; [exact Hl|]. split; [reflexivity | exact H].
Defined.

(** * The row filter of the earlier comparison table *)

Lemma filterIndexed_In {A : Type} (f : A -> nat -> bool) (l : list A) (index : nat) (x : A) :
  In x (filterIndexed f l index) <->
  exists t, nth_error l t = Some x /\ f x (index + t)%nat = true.
Proof.
  revert index. induction l as [|y l IH]; intros index; cbn [filterIndexed].
  - split; [intros [] | intros (t & Ht & _); destruct t; discriminate].
  - split.
    + intros H. destruct (f y index) eqn:E.
      * destruct H as [-> | H].
        -- exists 0%nat. rewrite Nat.add_0_r. split; [reflexivity | exact E].
        -- apply IH in H. destruct H as (t & Ht & Hf). exists (S t).
           split; [exact Ht|]. rewrite Nat.add_succ_r. exact Hf.
      * apply IH in H. destruct H as (t & Ht & Hf). exists (S t).
        split; [exact Ht|]. rewrite Nat.add_succ_r. exact Hf.
    + intros (t & Ht & Hf). destruct t as [|t].
      * injection Ht as ->. rewrite Nat.add_0_r in Hf. rewrite Hf. left. reflexivity.
      * cbn [nth_error] in Ht. rewrite Nat.add_succ_r in Hf.
        assert (In x (filterIndexed f l (S index))) as Hin
          by (apply IH; exists t; split; assumption).
        destruct (f y index); [right|]; exact Hin.
Qed.

(** X21.  On the engine's output the earlier table's filter by position
    shows exactly the snapshots whose year is at most 10 or a multiple
    of 5. *)
Theorem display_years_by_year (inputs : InvestmentInputs) (l : list YearlyProjection)
  (pr : YearlyProjection) :
  calculateProjections inputs = Some l ->
  (In pr (displayYears l) <->
   In pr l /\ ((year pr <= 10)%nat \/ (year pr mod 5 = 0)%nat)).
Proof.
  intros Hl. unfold displayYears. rewrite filterIndexed_In. cbn [Nat.add].
  assert (forall t, nth_error l t = Some pr -> year pr = (t + 1)%nat) as Hyear.
  { intros t Ht. destruct (calculateProjections_nth inputs l t pr Hl Ht) as (cr & co & ->).
    cbn [snapshot year]. lia. }
  split.
  - intros (t & Ht & Hf). split; [apply (nth_error_In l t Ht)|].
    rewrite (Hyear t Ht). cbv zeta in Hf. apply orb_true_iff in Hf.
    destruct Hf as [Hf | Hf];
      [left; apply Nat.leb_le; exact Hf | right; apply Nat.eqb_eq; exact Hf].
  - intros (Hin & Hy). apply In_nth_error in Hin. destruct Hin as (t & Ht).
    exists t. split; [exact Ht|]. rewrite (Hyear t Ht) in Hy. cbv zeta.
    apply orb_true_iff.
    destruct Hy as [Hy | Hy];
      [left; apply Nat.leb_le; exact Hy | right; apply Nat.eqb_eq; exact Hy].
Qed.

(** The theorem at scenario B: of 31 snapshots the table shows 14. *)
Lemma display_years_by_year_witness :
  exists l,
    calculateProjections scenarioB = Some l /\
    length (displayYears l) = 14%nat /\
    forall pr, In pr (displayYears l) <->
               In pr l /\ ((year pr <= 10)%nat \/ (year pr mod 5 = 0)%nat).
Proof.
  pose proof scenarioB_projections as Hl.
  eexists. split; [exact Hl|]. split; [reflexivity|].
  intros pr. exact (display_years_by_year scenarioB _ pr Hl).
Defined.
